(** * The project board of [src/app.ts]: validator, project store, form submission

    A shallow embedding of the TypeScript program.  The parts of the runtime
    the program relies on (UTF-16 strings, [String.prototype.trim],
    [Number.prototype.toString], numeric comparison, arrays living on a heap)
    are modelled in the first sections; the program's own functions
    ([validate], [ProjectState], [ProjectInput]) follow, each next to the
    source lines it embeds. *)

From Stdlib Require Import ZArith NArith List Ascii String Lia.
From Stdlib Require Import DecimalFacts DecimalPos DecimalN.
From stdpp Require Import base list.

Open Scope N_scope.

(** ** Runtime: strings *)

(** A JavaScript string is a sequence of UTF-16 code units; [.length] counts
    code units. *)
Abbreviation jsstring := (list N).

(** String literals of the source, written in ASCII. *)
Definition str (s : string) : jsstring :=
  map N_of_ascii (list_ascii_of_string s).

(** [WhiteSpace] and [LineTerminator] code points of ECMA-262, the characters
    [trim] strips: TAB, LF, VT, FF, CR, SP, NBSP, U+1680, U+2000..U+200A,
    U+2028, U+2029, U+202F, U+205F, U+3000, U+FEFF. *)
Definition is_white_space (c : N) : bool :=
  bool_decide (c ∈ [9; 10; 11; 12; 13; 32; 160; 5760; 8232; 8233; 8239; 8287; 12288; 65279])
  || ((8192 <=? c) && (c <=? 8202)).

(** Drop the longest prefix whose code units all satisfy [f]. *)
Fixpoint dropWhile (f : N -> bool) (s : jsstring) : jsstring :=
  match s with
  | [] => []
  | c :: rest => if f c then dropWhile f rest else s
  end.

Definition trimStart (s : jsstring) : jsstring := dropWhile is_white_space s.

Definition trimEnd (s : jsstring) : jsstring := rev (trimStart (rev s)).

(** [String.prototype.trim]. *)
Definition trim (s : jsstring) : jsstring := trimEnd (trimStart s).

(** ** Runtime: numbers *)

(** A JavaScript number.  The program performs no arithmetic on numbers: it
    only compares them and prints them.  A finite number is therefore
    represented by a decimal [m * 10^e], the one [Number.prototype.toString]
    prints for it (the shortest decimal that reads back as the same double;
    this map is strictly monotone, so comparing the decimals compares the
    doubles).  [+0] and [-0] compare equal and both print ["0"]: they are one
    value here. *)
Inductive number : Type :=
| NaN
| Infinity (negative : bool)
| Finite (m e : Z).

Definition num (z : Z) : number := Finite z 0.

(** [x <= y] on numbers; any comparison with [NaN] is false. *)
Definition num_le (x y : number) : bool :=
  match x, y with
  | NaN, _ | _, NaN => false
  | Infinity true, _ => true
  | _, Infinity false => true
  | Infinity false, _ => false
  | _, Infinity true => false
  | Finite m1 e1, Finite m2 e2 =>
      let b := Z.min e1 e2 in
      (m1 * 10 ^ (e1 - b) <=? m2 * 10 ^ (e2 - b))%Z
  end.

(** [x >= y]. *)
Definition num_ge (x y : number) : bool := num_le y x.

(** Decimal digits as code units. *)
Fixpoint uint_units (d : Decimal.uint) : jsstring :=
  match d with
  | Decimal.Nil => []
  | Decimal.D0 d => 48 :: uint_units d
  | Decimal.D1 d => 49 :: uint_units d
  | Decimal.D2 d => 50 :: uint_units d
  | Decimal.D3 d => 51 :: uint_units d
  | Decimal.D4 d => 52 :: uint_units d
  | Decimal.D5 d => 53 :: uint_units d
  | Decimal.D6 d => 54 :: uint_units d
  | Decimal.D7 d => 55 :: uint_units d
  | Decimal.D8 d => 56 :: uint_units d
  | Decimal.D9 d => 57 :: uint_units d
  end.

Definition digits (p : positive) : jsstring := uint_units (Pos.to_uint p).
Definition digitsN (n : N) : jsstring := uint_units (N.to_uint n).

Definition stripTrailingZeros (s : jsstring) : jsstring :=
  rev (dropWhile (N.eqb 48) (rev s)).

(** [Number::toString] of ECMA-262 (radix 10) for a positive finite number
    [s * 10^e].  [ds] are the [k] significant digits ([k] as small as
    possible) and [n] is the position of the decimal point. *)
Definition positiveToString (s : positive) (e : Z) : jsstring :=
  let all := digits s in
  let ds := stripTrailingZeros all in
  let k := Z.of_nat (length ds) in
  let n := (e + Z.of_nat (length all))%Z in
  if ((-5 <=? n) && (n <=? 21))%Z then
    if (k <=? n)%Z then ds ++ repeat 48 (Z.to_nat (n - k))
    else if (0 <? n)%Z then take (Z.to_nat n) ds ++ [46] ++ drop (Z.to_nat n) ds
    else [48; 46] ++ repeat 48 (Z.to_nat (- n)) ++ ds
  else
    let exponentSign := if (n <? 0)%Z then 45 else 43 in
    let exponent := digitsN (Z.to_N (Z.abs (n - 1))) in
    if (k =? 1)%Z then ds ++ [101; exponentSign] ++ exponent
    else take 1 ds ++ [46] ++ drop 1 ds ++ [101; exponentSign] ++ exponent.

(** [Number.prototype.toString]. *)
Definition numberToString (x : number) : jsstring :=
  match x with
  | NaN => str "NaN"
  | Infinity false => str "Infinity"
  | Infinity true => str "-Infinity"
  | Finite Z0 _ => str "0"
  | Finite (Zpos s) e => positiveToString s e
  | Finite (Zneg s) e => 45 :: positiveToString s e
  end.

(** ** [validate] (app.ts lines 1-8 and 27-45) *)

(** [value: string | number]. *)
Inductive strnum : Type :=
| VString (s : jsstring)
| VNumber (x : number).

(** [interface Validatable]; an optional field is [None] when it is absent
    ([!= null] is false for [undefined] and [null]). *)
Record Validatable : Type := {
  value : strnum;
  required : bool;
  minLength : option number;
  maxLength : option number;
  min : option number;
  max : option number
}.

(** [value.toString()]. *)
Definition toString (v : strnum) : jsstring :=
  match v with
  | VString s => s
  | VNumber x => numberToString x
  end.

(** [s.length] as a number. *)
Definition strlen (s : jsstring) : number := num (Z.of_nat (length s)).

Definition validate (validateInput : Validatable) : bool :=
  let isValid := true in
  let isValid :=
    if required validateInput
    then isValid && negb (Nat.eqb (length (trim (toString (value validateInput)))) 0)
    else isValid in
  let isValid :=
    match minLength validateInput, value validateInput with
    | Some bound, VString s => isValid && num_ge (strlen s) bound
    | _, _ => isValid
    end in
  let isValid :=
    match maxLength validateInput, value validateInput with
    | Some bound, VString s => isValid && num_le (strlen s) bound
    | _, _ => isValid
    end in
  let isValid :=
    match min validateInput, value validateInput with
    | Some bound, VNumber x => isValid && num_ge x bound
    | _, _ => isValid
    end in
  let isValid :=
    match max validateInput, value validateInput with
    | Some bound, VNumber x => isValid && num_le x bound
    | _, _ => isValid
    end in
  isValid.


(** The checks of the specification's wording: each check that applies to the
    input contributes one boolean, and the result is their conjunction. *)
Definition nonblank (v : strnum) : bool :=
  negb (Nat.eqb (length (trim (toString v))) 0).

Definition optionalCheck (bound : option number) (check : number -> bool) : list bool :=
  match bound with
  | Some b => [check b]
  | None => []
  end.

Definition applicableChecks (i : Validatable) : list bool :=
  (if required i then [nonblank (value i)] else []) ++
  match value i with
  | VString s =>
      optionalCheck (minLength i) (fun b => num_ge (strlen s) b) ++
      optionalCheck (maxLength i) (fun b => num_le (strlen s) b)
  | VNumber x =>
      optionalCheck (min i) (fun b => num_ge x b) ++
      optionalCheck (max i) (fun b => num_le x b)
  end.

Definition conjunction (checks : list bool) : bool := forallb (fun b => b) checks.

(** A bound that is absent is skipped; one that is present must hold. *)
Definition withinBound (bound : option number) (check : number -> bool) : bool :=
  match bound with
  | Some b => check b
  | None => true
  end.

(** ** Runtime: objects and arrays *)

Open Scope nat_scope.

(** [enum Status { Active, Finished }] (app.ts line 22). *)
Inductive Status : Type := Active | Finished.

#[global] Instance Status_eq_dec : EqDecision Status.
Proof. solve_decision. Defined.

(** [class Project] (app.ts lines 87-95). *)
Record Project : Type := {
  id : jsstring;
  title : jsstring;
  description : jsstring;
  people : number;
  status : Status
}.

(** Objects and arrays are reached through references.  A reference is the
    index of its cell; a cell is never freed, and allocation takes the next
    index.  [objs] holds the [Project] objects, [arrs] the arrays of
    [Project] references ([Project[]]). *)
Record Heap : Type := {
  objs : list Project;
  arrs : list (list nat)
}.

Definition emptyHeap : Heap := {| objs := []; arrs := [] |}.

(** The elements of the array at [a]. *)
Definition elements (h : Heap) (a : nat) : list nat := default [] (arrs h !! a).

(** The objects a list of references points to. *)
Definition deref (h : Heap) (refs : list nat) : list Project :=
  omap (fun r => objs h !! r) refs.

(** [new Project(...)]. *)
Definition newProject (p : Project) (h : Heap) : nat * Heap :=
  (length (objs h), {| objs := objs h ++ [p]; arrs := arrs h |}).

(** [[]]: a fresh empty array. *)
Definition newArray (h : Heap) : nat * Heap :=
  (length (arrs h), {| objs := objs h; arrs := arrs h ++ [[]] |}).

(** [a.push(r)]: in place. *)
Definition push (a r : nat) (h : Heap) : Heap :=
  {| objs := objs h; arrs := alter (fun l => l ++ [r]) a (arrs h) |}.

(** [a.slice()]: a fresh array with the same elements (the references, not
    copies of the objects). *)
Definition slice (a : nat) (h : Heap) : nat * Heap :=
  (length (arrs h), {| objs := objs h; arrs := arrs h ++ [elements h a] |}).

(** [a.filter(pred)]: a fresh array. *)
Definition filterArray (pred : Project -> bool) (a : nat) (h : Heap) : nat * Heap :=
  (length (arrs h),
   {| objs := objs h;
      arrs := arrs h ++
        [List.filter (fun r => match objs h !! r with Some p => pred p | None => false end)
           (elements h a)] |}).

(** [a.find(p => p.id === projectId)]: the first element whose [id] is
    [projectId], if any. *)
Definition findById (projectId : jsstring) (a : nat) (h : Heap) : option nat :=
  snd <$> list_find (fun r => id <$> objs h !! r = Some projectId) (elements h a).

Definition withStatus (s : Status) (p : Project) : Project :=
  {| id := id p; title := title p; description := description p;
     people := people p; status := s |}.

(** [r.status = s]: in place. *)
Definition setStatus (r : nat) (s : Status) (h : Heap) : Heap :=
  {| objs := alter (withStatus s) r (objs h); arrs := arrs h |}.

(** ** The store: [State] and [ProjectState] (app.ts lines 24 and 97-150) *)

(** [type Listener<T> = (items: T[]) => void]: a listener is handed the
    reference of an array and acts on the heap.  The listener list of the
    store is not in the heap: a listener that calls back into the store is
    outside this model. *)
Definition Listener : Type := nat -> Heap -> Heap.

(** One call of a listener: the listener, the reference it was handed, the
    elements of that array and the objects they pointed to at the call. *)
Record Call : Type := {
  callee : Listener;
  argument : nat;
  items : list nat;
  seen : list Project
}.

(** The fields of the store: the listener list of [State] and the reference
    of the array [projects].  Neither field is ever reassigned. *)
Record ProjectState : Type := {
  listeners : list Listener;
  projects : nat
}.

(** [new ProjectState()]. *)
Definition newProjectState (h : Heap) : ProjectState * Heap :=
  let '(a, h) := newArray h in
  ({| listeners := []; projects := a |}, h).

(** [ProjectState.getInstance()], [instance] being the static field. *)
Definition getInstance (instance : option ProjectState) (h : Heap)
  : option ProjectState * ProjectState * Heap :=
  match instance with
  | Some st => (instance, st, h)
  | None => let '(st, h) := newProjectState h in (Some st, st, h)
  end.

(** [addListener] (lines 100-102). *)
Definition addListener (st : ProjectState) (listenerFunc : Listener) : ProjectState :=
  {| listeners := listeners st ++ [listenerFunc]; projects := projects st |}.

(** [for (const listener of this.listeners) listener(this.projects.slice())]
    (lines 131-133 and 145-147). *)
Fixpoint updateListeners (ls : list Listener) (a : nat) (h : Heap) : Heap * list Call :=
  match ls with
  | [] => (h, [])
  | listener :: rest =>
      let '(copy, h) := slice a h in
      let call := {| callee := listener; argument := copy;
                     items := elements h copy; seen := deref h (elements h copy) |} in
      let h := listener copy h in
      let '(h, calls) := updateListeners rest a h in
      (h, call :: calls)
  end.

(** [addProject] (lines 122-134); [random] is the result of [Math.random()]. *)
Definition addProject (st : ProjectState) (random : number)
    (title description : jsstring) (numOfPeople : number) (h : Heap) : Heap * list Call :=
  let '(newProjects, h) :=
    newProject {| id := numberToString random; title := title;
                  description := description; people := numOfPeople;
                  status := Active |} h in
  let h := push (projects st) newProjects h in
  updateListeners (listeners st) (projects st) h.

(** [moveProject] (lines 136-142). *)
Definition moveProject (st : ProjectState) (projectId : jsstring) (newStatus : Status)
    (h : Heap) : Heap * list Call :=
  match findById projectId (projects st) h with
  | Some project =>
      if bool_decide (status <$> objs h !! project ≠ Some newStatus)
      then updateListeners (listeners st) (projects st) (setStatus project newStatus h)
      else (h, [])
  | None => (h, [])
  end.

(** The store's collection, read through the heap. *)
Definition collection (st : ProjectState) (h : Heap) : list Project :=
  deref h (elements h (projects st)).

(** ** The listener of [ProjectList] (app.ts lines 240-249) *)

(** ["active" | "finished"]. *)
Inductive ListType : Type := active | finished.

(** The listener keeps the projects of its own column: [filter] builds the
    new value of [assignedProjects].  Rendering them is work on the document
    and leaves projects and arrays alone. *)
Definition projectListListener (type : ListType) : Listener :=
  fun projects h =>
    snd (filterArray
           (fun project =>
              match type with
              | active => bool_decide (status project = Active)
              | finished => bool_decide (status project = Finished)
              end) projects h).

(** [dropHandler] (lines 224-227). *)
Definition dropHandler (type : ListType) (st : ProjectState) (projectId : jsstring)
    (h : Heap) : Heap * list Call :=
  moveProject st projectId (match type with active => Active | finished => Finished end) h.

(** ** The form: [ProjectInput] (app.ts lines 264-334) *)

(** The [value] of the three input elements. *)
Record ProjectInput : Type := {
  titleInputElement : jsstring;
  descriptionInputElement : jsstring;
  peopleInputElement : jsstring
}.

Definition alertMessage : jsstring := str "Invalid Input, please try again!".

Section Presentation.

(** The runtime's conversion of a string to a number (unary [+]). *)
Variable ToNumber : jsstring -> number.

(** [gatherUserInputVaues] (lines 285-317): the alerts raised and the value
    returned, [None] standing for [void]. *)
Definition gatherUserInputVaues (this : ProjectInput)
  : list jsstring * option (jsstring * jsstring * number) :=
  let titleValue := titleInputElement this in
  let descriptionValue := descriptionInputElement this in
  let peopleValue := peopleInputElement this in
  let titleValidator :=
    {| value := VString titleValue; required := true;
       minLength := None; maxLength := None; min := None; max := None |} in
  let descriptionValidator :=
    {| value := VString descriptionValue; required := true;
       minLength := Some (num 5); maxLength := None; min := None; max := None |} in
  let peopleValidator :=
    {| value := VString peopleValue; required := true;
       minLength := None; maxLength := None;
       min := Some (num 1); max := Some (num 10) |} in
  let alerts :=
    if negb (validate titleValidator)
       || negb (validate descriptionValidator)
       || negb (validate peopleValidator)
    then [alertMessage] else [] in
  (alerts, Some (titleValue, descriptionValue, ToNumber peopleValue)).

(** [clearInputs] (lines 319-323). *)
Definition clearInputs (this : ProjectInput) : ProjectInput :=
  {| titleInputElement := []; descriptionInputElement := []; peopleInputElement := [] |}.

(** [submitHandler] (lines 325-333): the form afterwards, the alerts raised,
    the heap and the listener calls made. *)
Definition submitHandler (random : number) (this : ProjectInput)
    (projectState : ProjectState) (h : Heap)
  : ProjectInput * list jsstring * (Heap * list Call) :=
  let '(alerts, userInput) := gatherUserInputVaues this in
  match userInput with
  | Some (title, description, numOfPeople) =>
      let r := addProject projectState random title description numOfPeople h in
      (clearInputs this, alerts, r)
  | None => (this, alerts, (h, []))
  end.

End Presentation.

(** What the specification says of the form: an input is valid when the title
    is not blank, the description is not blank and has at least 5 code units,
    and the people count is a number from 1 to 10. *)
Definition validTitle (t : jsstring) : bool := nonblank (VString t).
Definition validDescription (d : jsstring) : bool :=
  nonblank (VString d) && num_ge (strlen d) (num 5).
Definition isInteger (x : number) : bool :=
  match x with
  | Finite m e => ((0 <=? e) || (m mod 10 ^ (- e) =? 0))%Z
  | _ => false
  end.
Definition validPeople (n : number) : bool :=
  isInteger n && num_ge n (num 1) && num_le n (num 10).

(** ** Sequences of store operations *)

Inductive Op : Type :=
| OpAddListener (listenerFunc : Listener)
| OpAddProject (random : number) (title description : jsstring) (numOfPeople : number)
| OpMoveProject (projectId : jsstring) (newStatus : Status).

Definition step (op : Op) (st : ProjectState) (h : Heap) : ProjectState * (Heap * list Call) :=
  match op with
  | OpAddListener l => (addListener st l, (h, []))
  | OpAddProject random title description n => (st, addProject st random title description n h)
  | OpMoveProject projectId newStatus => (st, moveProject st projectId newStatus h)
  end.

Fixpoint run (ops : list Op) (st : ProjectState) (h : Heap) : ProjectState * (Heap * list Call) :=
  match ops with
  | [] => (st, (h, []))
  | op :: rest =>
      let '(st, (h, calls)) := step op st h in
      let '(st, (h, later)) := run rest st h in
      (st, (h, calls ++ later))
  end.

(** The listeners a sequence of operations registers, and the random draws
    it consumes. *)
Definition registered (ops : list Op) : list Listener :=
  omap (fun op => match op with OpAddListener l => Some l | _ => None end) ops.

Definition draws (ops : list Op) : list number :=
  omap (fun op => match op with OpAddProject random _ _ _ => Some random | _ => None end) ops.

(** ** The store as the specification describes it: snapshots as values *)

(** The record [addProject] creates. *)
Definition created (random : number) (title description : jsstring) (numOfPeople : number)
  : Project :=
  {| id := numberToString random; title := title; description := description;
     people := numOfPeople; status := Active |}.

(** A move on a sequence of records: [Some] of the new sequence when the
    first record with that id has another status, [None] for the silent
    no-op. *)
Definition moved (projectId : jsstring) (newStatus : Status) (c : list Project)
  : option (list Project) :=
  match list_find (fun p => id p = projectId) c with
  | Some (i, p) =>
      if bool_decide (status p ≠ newStatus) then Some (<[i := withStatus newStatus p]> c)
      else None
  | None => None
  end.

(** One notification round: every listener, in order, with the same
    sequence of records. *)
Definition round (ls : list Listener) (c : list Project) : list (Listener * list Project) :=
  map (fun l => (l, c)) ls.

(** What the listeners are to observe over a sequence of operations.  No
    listener is ever applied here: the observations do not depend on what
    listeners do. *)
Fixpoint observations (ops : list Op) (ls : list Listener) (c : list Project)
  : list (Listener * list Project) :=
  match ops with
  | [] => []
  | OpAddListener l :: rest => observations rest (ls ++ [l]) c
  | OpAddProject random title description n :: rest =>
      let c := c ++ [created random title description n] in
      round ls c ++ observations rest ls c
  | OpMoveProject projectId newStatus :: rest =>
      match moved projectId newStatus c with
      | Some c => round ls c ++ observations rest ls c
      | None => observations rest ls c
      end
  end.

(** The sequence of records after a sequence of operations. *)
Fixpoint collectionAfter (ops : list Op) (c : list Project) : list Project :=
  match ops with
  | [] => c
  | OpAddListener _ :: rest => collectionAfter rest c
  | OpAddProject random title description n :: rest =>
      collectionAfter rest (c ++ [created random title description n])
  | OpMoveProject projectId newStatus :: rest =>
      collectionAfter rest (default c (moved projectId newStatus c))
  end.

(** ** Well-formed states and well-behaved listeners *)

(** The store's array exists, its elements are distinct references, and each
    points to an object.  Holds of a new store and is kept by every
    operation. *)
Definition wf (st : ProjectState) (h : Heap) : Prop :=
  projects st < length (arrs h) ∧
  NoDup (elements h (projects st)) ∧
  Forall (fun r => r < length (objs h)) (elements h (projects st)).

(** [h'] keeps every object of [h] and every array of [h] outside [touched]. *)
Definition frame (touched : nat -> Prop) (h h' : Heap) : Prop :=
  objs h `prefix_of` objs h' ∧
  length (arrs h) ≤ length (arrs h') ∧
  ∀ b, b < length (arrs h) → ¬ touched b → arrs h' !! b = arrs h !! b.

(** A listener that writes to nothing but the sequence it was handed: it
    may add, remove or replace elements of that array and allocate objects
    and arrays of its own. *)
Definition sequenceOnly (l : Listener) : Prop :=
  ∀ a h, a < length (arrs h) → frame (eq a) h (l a h).

(** [h'] keeps every object and every array of [h]. *)
Definition extends (h h' : Heap) : Prop := frame (fun _ => False) h h'.

(** A listener that rewrites the sequence it received. *)
Definition rewriting (f : list nat -> list nat) : Listener :=
  fun items h => {| objs := objs h; arrs := alter f items (arrs h) |}.

(** A listener that writes a field of an element: [items[0].status = s]. *)
Definition restatusFirst (s : Status) : Listener :=
  fun items h =>
    match elements h items with
    | r :: _ => setStatus r s h
    | [] => h
    end.

(** ** The program's start-up (app.ts lines 152 and 336-338) *)

(** The store with the listeners of the two [ProjectList]s. *)
Definition board : ProjectState * Heap :=
  let '(_, st, h) := getInstance None emptyHeap in
  (addListener (addListener st (projectListListener active)) (projectListListener finished), h).

(** Two projects on the board. *)
Definition sampleOps : list Op :=
  [OpAddProject (Finite 25 (-2)) (str "Plan") (str "Write the plan") (num 3);
   OpAddProject (Finite 75 (-2)) (str "Ship") (str "Ship the product") (num 2)].

Definition sample : ProjectState * Heap :=
  let '(st, (h, _)) := run sampleOps board.1 board.2 in (st, h).

(** A new store whose first listener empties the array it is handed and
    whose second listener doubles it. *)
Definition meddled : ProjectState * Heap :=
  let '(st, h) := newProjectState emptyHeap in
  (addListener (addListener st (rewriting (fun _ => [])))
     (rewriting (fun l => l ++ l)), h).

(** The form left empty, and a form asking for 99 people. *)
Definition blankForm : ProjectInput :=
  {| titleInputElement := []; descriptionInputElement := []; peopleInputElement := [] |}.

Definition crowdedForm : ProjectInput :=
  {| titleInputElement := str "Plan"; descriptionInputElement := str "Write the plan";
     peopleInputElement := str "99" |}.

(** ** Relaxing a [Validatable] *)

(** [i] asks no more than [j] of the same value: it is required only if [j]
    is, and every bound it sets is set, to the same number, by [j]. *)
Definition relaxes (i j : Validatable) : Prop :=
  value i = value j ∧
  (required i = true → required j = true) ∧
  (∀ b, minLength i = Some b → minLength j = Some b) ∧
  (∀ b, maxLength i = Some b → maxLength j = Some b) ∧
  (∀ b, min i = Some b → min j = Some b) ∧
  (∀ b, max i = Some b → max j = Some b).

(** ** What a project keeps for life *)

(** Every field of a project but its status. *)
Definition particulars (p : Project) : jsstring * jsstring * jsstring * number :=
  (id p, title p, description p, people p).

(** The records a sequence of operations creates, in order. *)
Definition creations (ops : list Op) : list Project :=
  omap (fun op => match op with
                  | OpAddProject random title description n =>
                      Some (created random title description n)
                  | _ => None
                  end) ops.

(** ** The columns: [ProjectList] (app.ts lines 199-260) *)

(** The test of the listener's [filter] (lines 241-246). *)
Definition relevant (type : ListType) (project : Project) : bool :=
  match type with
  | active => bool_decide (status project = Active)
  | finished => bool_decide (status project = Finished)
  end.

(** [relevantProjects] (line 241): the array the listener stores in
    [assignedProjects], and the heap after. *)
Definition relevantProjects (type : ListType) (projects : nat) (h : Heap) : nat * Heap :=
  filterArray (relevant type) projects h.

(** One notification round on the board (lines 145-147 with the listeners
    of lines 337-338), call by call, keeping the arrays the active and the
    finished column store in [assignedProjects]. *)
Definition boardRound (a : nat) (h : Heap) : nat * nat * Heap :=
  let '(copy, h) := slice a h in
  let '(assignedActive, h) := relevantProjects active copy h in
  let '(copy, h) := slice a h in
  let '(assignedFinished, h) := relevantProjects finished copy h in
  (assignedActive, assignedFinished, h).

(** ** Drag and drop (app.ts lines 174-183 and 214-233) *)

(** The drag data store behind [event.dataTransfer]: the items set so far,
    each a format with its data, in the order they were set.  The program's
    only format, ["text/plain"], is already in the form the runtime converts
    formats to. *)
Record DataTransfer : Type := {
  dragData : list (jsstring * jsstring);
  effectAllowed : jsstring
}.

(** The data store of a drag that starts on an element. *)
Definition emptyDataTransfer : DataTransfer :=
  {| dragData := []; effectAllowed := str "uninitialized" |}.

(** [dataTransfer.types]. *)
Definition types (dt : DataTransfer) : list jsstring := map fst (dragData dt).

(** [dataTransfer.setData(format, data)]: the item of that format, if any,
    is removed and the new item is added at the end. *)
Definition setData (format data : jsstring) (dt : DataTransfer) : DataTransfer :=
  {| dragData :=
       List.filter (fun item => negb (bool_decide (fst item = format))) (dragData dt)
       ++ [(format, data)];
     effectAllowed := effectAllowed dt |}.

(** [dataTransfer.getData(format)]: the data of the item of that format, or
    the empty string. *)
Definition getData (format : jsstring) (dt : DataTransfer) : jsstring :=
  match List.find (fun item => bool_decide (fst item = format)) (dragData dt) with
  | Some item => snd item
  | None => []
  end.

(** A [DragEvent]: its [dataTransfer], which may be [null], and whether
    [preventDefault] was called. *)
Record DragEvent : Type := {
  dataTransfer : option DataTransfer;
  defaultPrevented : bool
}.

(** [ProjectItem.dragStartHandler] (lines 175-178), for the item showing the
    project at reference [project]; [None] is the [TypeError] of [!] on a
    [null] [dataTransfer]. *)
Definition dragStartHandler (project : nat) (event : DragEvent) (h : Heap)
  : option DragEvent :=
  match dataTransfer event, objs h !! project with
  | Some dt, Some p =>
      let dt := setData (str "text/plain") (id p) dt in
      let dt := {| dragData := dragData dt; effectAllowed := str "move" |} in
      Some {| dataTransfer := Some dt; defaultPrevented := defaultPrevented event |}
  | _, _ => None
  end.

(** A column on the page: its type and the class list of its [ul]. *)
Record ProjectList : Type := {
  type : ListType;
  ulClassList : list jsstring
}.

(** [classList.add(token)] and [classList.remove(token)]: a class list is an
    ordered set. *)
Definition classListAdd (token : jsstring) (l : list jsstring) : list jsstring :=
  if bool_decide (token ∈ l) then l else l ++ [token].

Definition classListRemove (token : jsstring) (l : list jsstring) : list jsstring :=
  List.filter (fun t => negb (bool_decide (t = token))) l.

(** [dragOverHandler] (lines 215-221). *)
Definition dragOverHandler (this : ProjectList) (event : DragEvent)
  : ProjectList * DragEvent :=
  match dataTransfer event with
  | Some dt =>
      if bool_decide (types dt !! 0 = Some (str "text/plain"))
      then ({| type := type this;
               ulClassList := classListAdd (str "droppable") (ulClassList this) |},
            {| dataTransfer := dataTransfer event; defaultPrevented := true |})
      else (this, event)
  | None => (this, event)
  end.

(** [dragLeaveHandler] (lines 230-233). *)
Definition dragLeaveHandler (this : ProjectList) : ProjectList :=
  {| type := type this;
     ulClassList := classListRemove (str "droppable") (ulClassList this) |}.

(** [dropHandler] (lines 224-227) on the event: the column afterwards and
    the store's heap and listener calls; [None] is the [TypeError] of [!] on
    a [null] [dataTransfer]. *)
Definition dropHandlerOnEvent (this : ProjectList) (event : DragEvent)
    (projectState : ProjectState) (h : Heap) : option (ProjectList * (Heap * list Call)) :=
  match dataTransfer event with
  | Some dt =>
      let projectId := getData (str "text/plain") dt in
      Some (this, dropHandler (type this) projectState projectId h)
  | None => None
  end.

(** ** The card: [ProjectItem.persons] (app.ts lines 158-164 and 192) *)

(** [x === y] on numbers. *)
Definition num_eq (x y : number) : bool := num_le x y && num_le y x.

Definition persons (project : Project) : jsstring :=
  if num_eq (people project) (num 1) then str "1 person"
  else numberToString (people project) ++ str " persons".

(** The text of the card's [h3] (line 192). *)
Definition assignedText (project : Project) : jsstring := persons project ++ str " assigned".

(** ** A session at the form *)

(** Submissions one after the other, each with the random number drawn and
    what was typed into the form, which [submitHandler] has cleared: the
    alerts of each submission, the heap and the listener calls. *)
Fixpoint submitAll (ToNumber : jsstring -> number) (typed : list (number * ProjectInput))
    (projectState : ProjectState) (h : Heap) : list (list jsstring) * (Heap * list Call) :=
  match typed with
  | [] => ([], (h, []))
  | (random, this) :: rest =>
      let '(_, alerts, (h, calls)) := submitHandler ToNumber random this projectState h in
      let '(alertss, (h, later)) := submitAll ToNumber rest projectState h in
      (alerts :: alertss, (h, calls ++ later))
  end.

(** Two projects made with the same random draw. *)
Definition twinOps : list Op :=
  [OpAddProject (Finite 5 (-1)) (str "Plan") (str "Write the plan") (num 3);
   OpAddProject (Finite 5 (-1)) (str "Ship") (str "Ship the product") (num 2)].

Definition twins : ProjectState * Heap :=
  let '(st, (h, _)) := run twinOps board.1 board.2 in (st, h).

(** ** Notifications as deliveries *)

(** The calls of a log were really made, one after the other, taking the
    heap from [h] to [h']: each callee was applied to a new array, one that
    is no array of the heap before the call, holding the elements the array
    [a] held at that moment ([items]), whose objects at that moment were
    [seen]; the next call starts from the heap the callee returned. *)
Fixpoint Delivered (a : nat) (calls : list Call) (h h' : Heap) : Prop :=
  match calls with
  | [] => h' = h
  | call :: rest =>
      argument call = length (arrs h) ∧
      items call = elements h a ∧
      seen call = deref h (items call) ∧
      Delivered a rest
        (callee call (argument call) {| objs := objs h; arrs := arrs h ++ [items call] |})
        h'
  end.

(** A sequence of operations was really performed, taking the heap from [h]
    to [h'] with the listener calls [calls]: every [addProject] created its
    project and pushed it on the store's array, every [moveProject] that
    found its project in another status wrote the status, and each of them
    then delivered one round to the listeners registered at that time, in
    order; nothing else was written and nobody else was called. *)
Fixpoint Performed (ops : list Op) (st : ProjectState) (h : Heap) (calls : list Call)
    (h' : Heap) : Prop :=
  match ops with
  | [] => calls = [] ∧ h' = h
  | OpAddListener l :: rest => Performed rest (addListener st l) h calls h'
  | OpAddProject random title description n :: rest =>
      ∃ round later h1,
        calls = round ++ later ∧
        map callee round = listeners st ∧
        Delivered (projects st) round
          (push (projects st) (length (objs h))
             {| objs := objs h ++ [created random title description n]; arrs := arrs h |})
          h1 ∧
        Performed rest st h1 later h'
  | OpMoveProject projectId newStatus :: rest =>
      match findById projectId (projects st) h with
      | Some r =>
          if bool_decide (status <$> objs h !! r ≠ Some newStatus)
          then ∃ round later h1,
                 calls = round ++ later ∧
                 map callee round = listeners st ∧
                 Delivered (projects st) round (setStatus r newStatus h) h1 ∧
                 Performed rest st h1 later h'
          else Performed rest st h calls h'
      | None => Performed rest st h calls h'
      end
  end.

(** ** Listeners that register listeners (app.ts lines 97-103 and 131-133) *)

(** A callback may itself call [addListener] on the store.
    [Live body registers] is a listener that, when called, acts on the heap
    as [body] does and pushes the listeners [registers], in that order, on
    the store's listener list. *)
#[warnings="-register-all"]
Inductive LiveListener : Type :=
| Live (body : Listener) (registers : list LiveListener).

Definition body (l : LiveListener) : Listener :=
  match l with Live b _ => b end.

Definition registers (l : LiveListener) : list LiveListener :=
  match l with Live _ rs => rs end.

(** The calls a listener can cause in one round: its own and those of the
    listeners it registers. *)
Fixpoint weight (l : LiveListener) : nat :=
  match l with Live _ rs => S (list_sum (map weight rs)) end.

(** The store with its listener list as the array it is: [listeners] of
    [State] and [projects]. *)
Record LiveState : Type := {
  liveListeners : list LiveListener;
  liveProjects : nat
}.

(** [addListener] (lines 100-102). *)
Definition addListenerLive (st : LiveState) (listenerFunc : LiveListener) : LiveState :=
  {| liveListeners := liveListeners st ++ [listenerFunc]; liveProjects := liveProjects st |}.

(** [for (const listener of this.listeners) listener(this.projects.slice())]
    over the live array: the iteration reads the array's length at every
    step, so it goes on over the listeners pushed during the round.
    [pending] are the elements not yet visited; the result holds the
    listeners pushed during the round, in order.  [fuel] bounds the number of
    calls; [None] is running out of it. *)
Fixpoint notifyLive (fuel : nat) (pending : list LiveListener) (a : nat) (h : Heap)
  : option (list LiveListener * (Heap * list Call)) :=
  match pending with
  | [] => Some ([], (h, []))
  | listener :: rest =>
      match fuel with
      | 0 => None
      | S fuel =>
          let '(copy, h) := slice a h in
          let call := {| callee := body listener; argument := copy;
                         items := elements h copy; seen := deref h (elements h copy) |} in
          let h := body listener copy h in
          match notifyLive fuel (rest ++ registers listener) a h with
          | Some (pushed, (h, calls)) => Some (registers listener ++ pushed, (h, call :: calls))
          | None => None
          end
      end
  end.

(** One round, with fuel for every call the registered listeners can cause. *)
Definition updateListenersLive (st : LiveState) (h : Heap)
  : option (LiveState * (Heap * list Call)) :=
  match notifyLive (list_sum (map weight (liveListeners st))) (liveListeners st)
          (liveProjects st) h with
  | Some (pushed, r) =>
      Some ({| liveListeners := liveListeners st ++ pushed;
               liveProjects := liveProjects st |}, r)
  | None => None
  end.

(** [addProject] (lines 122-134) and [moveProject] (lines 136-142) on the
    live listener list. *)
Definition addProjectLive (st : LiveState) (random : number)
    (title description : jsstring) (numOfPeople : number) (h : Heap)
  : option (LiveState * (Heap * list Call)) :=
  let '(newProjects, h) := newProject (created random title description numOfPeople) h in
  let h := push (liveProjects st) newProjects h in
  updateListenersLive st h.

Definition moveProjectLive (st : LiveState) (projectId : jsstring) (newStatus : Status)
    (h : Heap) : option (LiveState * (Heap * list Call)) :=
  match findById projectId (liveProjects st) h with
  | Some project =>
      if bool_decide (status <$> objs h !! project ≠ Some newStatus)
      then updateListenersLive st (setStatus project newStatus h)
      else Some (st, (h, []))
  | None => Some (st, (h, []))
  end.

(** A store none of whose listeners registers a listener. *)
Definition flat (st : ProjectState) : LiveState :=
  {| liveListeners := map (fun l => Live l []) (listeners st);
     liveProjects := projects st |}.

(** A new store whose only listener, the active column's, registers the
    finished column's when it is called. *)
Definition lateBoard : LiveState * Heap :=
  let '(st, h) := newProjectState emptyHeap in
  ({| liveListeners :=
        [Live (projectListListener active) [Live (projectListListener finished) []]];
      liveProjects := projects st |}, h).

(** * Properties *)

(** ** Strings and numbers *)

Example numberToString_samples :
  numberToString (Finite 123 (-3)) = str "0.123" ∧
  numberToString (Finite 5 (-7)) = str "5e-7" ∧
  numberToString (Finite 123 (-8)) = str "0.00000123" ∧
  numberToString (Finite 1200 (-1)) = str "120" ∧
  numberToString (Finite 15 (-1)) = str "1.5" ∧
  numberToString (Finite 1 20) = str "100000000000000000000" ∧
  numberToString (Finite 1 21) = str "1e+21" ∧
  numberToString (Finite (-125) 23) = str "-1.25e+25" ∧
  numberToString (Infinity true) = str "-Infinity".
Proof. repeat split; reflexivity. Qed.

Example num_le_samples :
  num_le (Finite 15 (-1)) (num 2) = true ∧
  num_le (num 2) (Finite 15 (-1)) = false ∧
  num_le (num 10) (num 10) = true ∧
  num_le (Finite (-1) 3) (Finite 5 (-1)) = true ∧
  num_le NaN NaN = false ∧
  num_ge (num 7) NaN = false ∧
  num_le (num 7) (Infinity false) = true ∧
  num_ge (num 7) (Infinity false) = false.
Proof. repeat split; reflexivity. Qed.

Example trim_sample : trim (9%N :: 160%N :: str "  hi there " ++ [10%N; 8232%N]) = str "hi there".
Proof. reflexivity. Qed.

Lemma dropWhile_keeps (f : N -> bool) (s : jsstring) (c : N) :
  c ∈ s → f c = false → c ∈ dropWhile f s.
Proof.
  intros Hin Hc. induction s as [|d s IH]; simpl; [exact Hin|].
  destruct (f d) eqn:Hd; [|exact Hin].
  apply elem_of_cons in Hin as [->|Hin]; [congruence|]. by apply IH.
Qed.

Lemma elem_of_rev_iff (s : jsstring) (c : N) : c ∈ rev s ↔ c ∈ s.
Proof. rewrite !list_elem_of_In. symmetry. apply in_rev. Qed.

Lemma trim_keeps (s : jsstring) (c : N) :
  c ∈ s → is_white_space c = false → c ∈ trim s.
Proof.
  intros Hin Hc. unfold trim, trimEnd, trimStart.
  apply elem_of_rev_iff, dropWhile_keeps; [|done].
  apply elem_of_rev_iff, dropWhile_keeps; done.
Qed.

Lemma trim_nonblank (s : jsstring) (c : N) :
  c ∈ s → is_white_space c = false → length (trim s) ≠ 0.
Proof.
  intros Hin Hc. pose proof (trim_keeps s c Hin Hc) as H.
  destruct (trim s); [by apply elem_of_nil in H|done].
Qed.

Lemma uint_units_digit (d : Decimal.uint) (c : N) :
  c ∈ uint_units d → (48 <= c <= 57)%N.
Proof.
  induction d; simpl; intros H;
    [by apply elem_of_nil in H| apply elem_of_cons in H as [->|H]; [lia|auto] ..].
Qed.

Lemma digit_not_white (c : N) : (48 <= c <= 57)%N → is_white_space c = false.
Proof.
  intros H. unfold is_white_space.
  apply orb_false_iff; split.
  - apply bool_decide_eq_false. rewrite !elem_of_cons, elem_of_nil. lia.
  - apply andb_false_iff. left. apply N.leb_gt. lia.
Qed.

Lemma uint_units_all_zero (d : Decimal.uint) :
  (∀ c, c ∈ uint_units d → c = 48%N) → Pos.of_uint d = 0%N.
Proof.
  induction d; simpl; intros H; try reflexivity;
    try (specialize (H _ (proj2 (elem_of_cons _ _ _) (or_introl eq_refl))); discriminate H).
  apply IHd. intros c Hc. apply H. apply elem_of_cons. by right.
Qed.

Lemma digits_significant (p : positive) :
  ∃ c, c ∈ stripTrailingZeros (digits p) ∧ (48 <= c <= 57)%N.
Proof.
  destruct (decide (Forall (fun c => c = 48%N) (digits p))) as [Hall|Hsome].
  - exfalso. pose proof (DecimalPos.Unsigned.of_to p) as Hp.
    rewrite uint_units_all_zero in Hp; [discriminate|].
    intros c Hc. by apply (proj1 (Forall_forall _ _) Hall).
  - apply not_Forall_Exists in Hsome; [|intros c; apply _].
    apply Exists_exists in Hsome as (c & Hin & Hc).
    exists c. split; [|by apply (uint_units_digit (Pos.to_uint p))].
    unfold stripTrailingZeros. apply elem_of_rev_iff, dropWhile_keeps.
    + by apply elem_of_rev_iff.
    + apply N.eqb_neq. congruence.
Qed.

Lemma positiveToString_visible (s : positive) (e : Z) :
  ∃ c, c ∈ positiveToString s e ∧ is_white_space c = false.
Proof.
  destruct (digits_significant s) as (c & Hin & Hc).
  apply digit_not_white in Hc.
  unfold positiveToString. cbv zeta.
  repeat match goal with |- context [if ?b then _ else _] => destruct b end;
    first [ exists c; split; [by apply elem_of_app; left|done]
          | exists 46%N; split; [|done];
            rewrite ?elem_of_app, ?elem_of_cons; auto 10 ].
Qed.

Lemma numberToString_nonblank (x : number) : length (trim (numberToString x)) ≠ 0.
Proof.
  destruct x as [|[]|[|s|s] e]; simpl; try done.
  - destruct (positiveToString_visible s e) as (c & Hin & Hc).
    by apply (trim_nonblank _ c).
  - apply (trim_nonblank _ 45%N); [apply elem_of_cons; by left|done].
Qed.

(** ** [validate] *)

Lemma validate_checks (i : Validatable) : validate i = conjunction (applicableChecks i).
Proof.
  destruct i as [v r ml xl mn mx].
  unfold validate, applicableChecks, conjunction, optionalCheck, nonblank; simpl.
  destruct r, v as [s|x], ml as [ml|], xl as [xl|], mn as [mn|], mx as [mx|]; simpl;
    rewrite ?andb_true_r; try reflexivity;
    repeat match goal with |- context [negb ?b] => destruct (negb b) end;
    simpl; try reflexivity;
    repeat match goal with |- context [num_ge ?a ?b] => destruct (num_ge a b) end;
    simpl; reflexivity.
Qed.

(** C8: [validate] returns the conjunction of the checks that apply to its
    input: the required check (the trimmed string form is not empty) when
    [required] is set; the [minLength] and [maxLength] checks only for a
    string value; the [min] and [max] checks only for a number value; an
    absent optional field contributes no check.  In particular it returns
    false for [{value:"", required:true}], false for
    [{value:"hi", required:true, minLength:5}], true for
    [{value:7, required:true, min:1, max:10}] and false for
    [{value:11, required:true, max:10}]. *)
Theorem validate_conjunction_of_applicable_checks :
  (∀ i : Validatable, validate i = conjunction (applicableChecks i)) ∧
  validate {| value := VString (str ""); required := true; minLength := None;
              maxLength := None; min := None; max := None |} = false ∧
  validate {| value := VString (str "hi"); required := true; minLength := Some (num 5);
              maxLength := None; min := None; max := None |} = false ∧
  validate {| value := VNumber (num 7); required := true; minLength := None;
              maxLength := None; min := Some (num 1); max := Some (num 10) |} = true ∧
  validate {| value := VNumber (num 11); required := true; minLength := None;
              maxLength := None; min := None; max := Some (num 10) |} = false.
Proof.
  split; [exact validate_checks|].
  repeat split; vm_compute; reflexivity.
Qed.

(** C9: the string form of every number is non-empty after trimming, so
    the required check passes for every numeric value and
    [validate({value:n, required:true, ...})] is true exactly when no [min] or
    [max] bound that is present excludes [n] ([minLength] and [maxLength] are
    ignored for a number); and [validate] returns true for every value when
    [required] is false and no bound applicable to the value is set. *)
Theorem validate_number_required_and_unconstrained :
  (∀ n : number, nonblank (VNumber n) = true) ∧
  (∀ (n : number) (ml xl mn mx : option number),
     validate {| value := VNumber n; required := true; minLength := ml;
                 maxLength := xl; min := mn; max := mx |}
     = withinBound mn (num_ge n) && withinBound mx (num_le n)) ∧
  (∀ (s : jsstring) (mn mx : option number),
     validate {| value := VString s; required := false; minLength := None;
                 maxLength := None; min := mn; max := mx |} = true) ∧
  (∀ (n : number) (ml xl : option number),
     validate {| value := VNumber n; required := false; minLength := ml;
                 maxLength := xl; min := None; max := None |} = true).
Proof.
  assert (Hreq : ∀ n, nonblank (VNumber n) = true).
  { intros n. unfold nonblank. simpl. apply negb_true_iff, Nat.eqb_neq.
    apply numberToString_nonblank. }
  split; [exact Hreq|]. split; [|split].
  - intros n ml xl mn mx. specialize (Hreq n). unfold nonblank in Hreq.
    unfold validate; simpl. simpl in Hreq. rewrite Hreq.
    destruct ml, xl, mn, mx; simpl; rewrite ?andb_true_r; reflexivity.
  - intros s [?|] [?|]; reflexivity.
  - intros n [?|] [?|]; reflexivity.
Qed.

(** ** The heap *)

Lemma extends_refl (h : Heap) : extends h h.
Proof. repeat split; auto. Qed.

Lemma extends_trans (h1 h2 h3 : Heap) : extends h1 h2 → extends h2 h3 → extends h1 h3.
Proof.
  intros (Ho & Hl & Ha) (Ho' & Hl' & Ha'). repeat split.
  - by etrans.
  - lia.
  - intros b Hb Hn. rewrite Ha'; [by apply Ha|lia|done].
Qed.

Lemma extends_elements (h h' : Heap) (a : nat) :
  extends h h' → a < length (arrs h) → elements h' a = elements h a.
Proof. intros (_ & _ & Ha) Hlt. unfold elements. rewrite Ha; [done|done|tauto]. Qed.

Lemma deref_cons_valid (h : Heap) (r : nat) (p : Project) (refs : list nat) :
  objs h !! r = Some p → deref h (r :: refs) = p :: deref h refs.
Proof. intros H. unfold deref. simpl. by rewrite H. Qed.

Lemma deref_lookup (h : Heap) (refs : list nat) (i : nat) :
  Forall (fun r => r < length (objs h)) refs →
  deref h refs !! i = refs !! i ≫= (fun r => objs h !! r).
Proof.
  intros Hv. revert i. induction Hv as [|r refs Hr _ IH]; intros i; [done|].
  apply lookup_lt_is_Some in Hr as [p Hp].
  rewrite (deref_cons_valid _ _ p) by done.
  destruct i as [|i]; simpl; [by rewrite Hp|apply IH].
Qed.

Lemma deref_length (h : Heap) (refs : list nat) :
  Forall (fun r => r < length (objs h)) refs → length (deref h refs) = length refs.
Proof.
  induction 1 as [|r refs Hr _ IH]; [done|].
  apply lookup_lt_is_Some in Hr as [p Hp].
  rewrite (deref_cons_valid _ _ p) by done. simpl. by rewrite IH.
Qed.

Lemma deref_app (h : Heap) (l k : list nat) : deref h (l ++ k) = deref h l ++ deref h k.
Proof. apply omap_app. Qed.

Lemma deref_prefix (h h' : Heap) (refs : list nat) :
  objs h `prefix_of` objs h' →
  Forall (fun r => r < length (objs h)) refs →
  deref h' refs = deref h refs.
Proof.
  intros Hp Hv. induction Hv as [|r refs Hr _ IH]; [done|].
  apply lookup_lt_is_Some in Hr as [p Hr].
  rewrite (deref_cons_valid h _ p) by done.
  rewrite (deref_cons_valid h' _ p) by (by eapply prefix_lookup_Some).
  by rewrite IH.
Qed.

Lemma valid_prefix (h h' : Heap) (refs : list nat) :
  objs h `prefix_of` objs h' →
  Forall (fun r => r < length (objs h)) refs →
  Forall (fun r => r < length (objs h')) refs.
Proof.
  intros Hp Hv. eapply Forall_impl; [exact Hv|]. intros r Hr. simpl in Hr.
  apply prefix_length in Hp. lia.
Qed.

Lemma wf_extends (st : ProjectState) (h h' : Heap) :
  wf st h → extends h h' → wf st h'.
Proof.
  intros (Hlt & Hnd & Hv) Hext.
  pose proof Hext as (Ho & Hl & _).
  unfold wf. rewrite (extends_elements h h') by done.
  repeat split; [lia|done|by eapply valid_prefix].
Qed.

Lemma collection_extends (st : ProjectState) (h h' : Heap) :
  wf st h → extends h h' → collection st h' = collection st h.
Proof.
  intros (Hlt & _ & Hv) Hext. unfold collection.
  rewrite (extends_elements h h') by done.
  apply deref_prefix; [apply Hext|done].
Qed.

(** ** Notification *)

Lemma slice_extends (a : nat) (h : Heap) : extends h (slice a h).2.
Proof.
  split; [done|]. split; simpl.
  - rewrite length_app. lia.
  - intros b Hb _. by rewrite lookup_app_l.
Qed.

Lemma slice_elements (a : nat) (h : Heap) :
  elements (slice a h).2 (slice a h).1 = elements h a.
Proof. unfold elements at 1. simpl. by rewrite list_lookup_middle. Qed.

Lemma updateListeners_spec (ls : list Listener) :
  ∀ (a : nat) (h : Heap),
    a < length (arrs h) →
    Forall sequenceOnly ls →
    Forall (fun r => r < length (objs h)) (elements h a) →
    extends h (updateListeners ls a h).1 ∧
    map callee (updateListeners ls a h).2 = ls ∧
    Forall (fun c => length (arrs h) ≤ argument c ∧
                     items c = elements h a ∧
                     seen c = deref h (elements h a))
           (updateListeners ls a h).2.
Proof.
  induction ls as [|l ls IH]; intros a h Ha Hls Hv; simpl.
  { split; [apply extends_refl|]. split; [done|constructor]. }
  apply Forall_cons in Hls as [Hl Hls].
  pose proof (slice_elements a h) as Hcopy. simpl in Hcopy.
  set (h1 := {| objs := objs h; arrs := arrs h ++ [elements h a] |}) in *.
  set (copy := length (arrs h)) in *.
  assert (Hc1 : copy < length (arrs h1)).
  { subst h1 copy; simpl. rewrite length_app; simpl. lia. }
  destruct (Hl copy h1 Hc1) as (Ho & Hlen & Hkeep).
  assert (Hext : extends h (l copy h1)).
  { repeat split.
    - exact Ho.
    - subst h1 copy; simpl in *. rewrite length_app in Hlen; simpl in Hlen. lia.
    - intros b Hb _. rewrite Hkeep; [|lia|subst copy; lia].
      subst h1; simpl. by rewrite lookup_app_l. }
  assert (Ha2 : a < length (arrs (l copy h1))) by (destruct Hext as (_ & ? & _); lia).
  assert (Hel : elements (l copy h1) a = elements h a) by (by apply extends_elements).
  specialize (IH a (l copy h1) Ha2 Hls).
  rewrite Hel in IH.
  destruct IH as (Hext' & Hcallee & Hcalls).
  { eapply valid_prefix; [apply Hext|done]. }
  destruct (updateListeners ls a (l copy h1)) as [h' calls] eqn:Hrun. simpl in *.
  split; [by eapply extends_trans|]. split; [by rewrite Hcallee|].
  constructor; simpl.
  - rewrite Hcopy. auto.
  - eapply Forall_impl; [exact Hcalls|]. intros c (Harg & Hit & Hseen).
    split; [destruct Hext as (_ & ? & _); lia|]. split; [done|].
    rewrite Hseen. apply deref_prefix; [apply Hext|done].
Qed.

(** ** [addProject] *)

Lemma elements_lookup (h : Heap) (a : nat) :
  a < length (arrs h) → arrs h !! a = Some (elements h a).
Proof.
  intros Ha. apply lookup_lt_is_Some in Ha as [l Hl].
  unfold elements. by rewrite Hl.
Qed.

Lemma push_new_elements (h : Heap) (a : nat) (p : Project) :
  a < length (arrs h) →
  elements (push a (newProject p h).1 (newProject p h).2) a
  = elements h a ++ [length (objs h)].
Proof.
  intros Ha. unfold elements at 1. simpl.
  rewrite list_lookup_alter_eq, (elements_lookup h a) by done. done.
Qed.

Lemma push_new_wf (st : ProjectState) (h : Heap) (p : Project) :
  wf st h → wf st (push (projects st) (newProject p h).1 (newProject p h).2).
Proof.
  intros (Ha & Hnd & Hv). unfold wf.
  rewrite push_new_elements by done. simpl.
  rewrite length_alter, length_app. simpl.
  split; [done|]. split.
  - apply NoDup_app. split; [done|]. split; [|apply NoDup_singleton].
    intros r Hr Hr'. apply list_elem_of_singleton in Hr'. subst r.
    apply (proj1 (Forall_forall _ _) Hv) in Hr. lia.
  - apply Forall_app. split.
    + eapply Forall_impl; [exact Hv|]. simpl. intros; lia.
    + repeat constructor. lia.
Qed.

Lemma push_new_collection (st : ProjectState) (h : Heap) (p : Project) :
  wf st h →
  collection st (push (projects st) (newProject p h).1 (newProject p h).2)
  = collection st h ++ [p].
Proof.
  intros (Ha & Hnd & Hv). unfold collection.
  rewrite push_new_elements by done. rewrite deref_app. f_equal.
  - apply deref_prefix; [|done]. simpl. by apply prefix_app_r.
  - unfold deref. simpl. by rewrite list_lookup_middle.
Qed.

Lemma addProject_refines (st : ProjectState) (random : number)
    (t d : jsstring) (n : number) (h : Heap) :
  wf st h → Forall sequenceOnly (listeners st) →
  wf st (addProject st random t d n h).1 ∧
  collection st (addProject st random t d n h).1
    = collection st h ++ [created random t d n] ∧
  map callee (addProject st random t d n h).2 = listeners st ∧
  Forall (fun call => argument call ≠ projects st ∧
                      seen call = collection st h ++ [created random t d n])
         (addProject st random t d n h).2.
Proof.
  intros Hwf Hls. unfold addProject.
  fold (created random t d n).
  pose proof (push_new_wf st h (created random t d n) Hwf) as Hwf1.
  pose proof (push_new_collection st h (created random t d n) Hwf) as Hc1.
  simpl in Hwf1, Hc1 |- *.
  set (h1 := push (projects st) (length (objs h)) _) in *.
  destruct (updateListeners_spec (listeners st) (projects st) h1)
    as (Hext & Hcallee & Hcalls); [apply Hwf1|done|apply Hwf1|].
  split; [by eapply wf_extends|].
  split; [by rewrite (collection_extends st h1)|].
  split; [done|].
  eapply Forall_impl; [exact Hcalls|]. intros call (Harg & _ & Hseen).
  split; [destruct Hwf1 as (? & _); lia|].
  by rewrite Hseen.
Qed.

(** ** [moveProject] *)

Lemma findById_collection (pid : jsstring) (h : Heap) (refs : list nat) :
  Forall (fun r => r < length (objs h)) refs →
  list_find (fun p => id p = pid) (deref h refs)
  = list_find (fun r => id <$> objs h !! r = Some pid) refs
      ≫= (fun ir => (fun p => (ir.1, p)) <$> objs h !! ir.2).
Proof.
  induction 1 as [|r refs Hr _ IH]; [done|].
  apply lookup_lt_is_Some in Hr as [p Hp].
  rewrite (deref_cons_valid _ _ p) by done. simpl.
  rewrite Hp. simpl.
  destruct (decide (id p = pid)) as [Heq|Hne].
  - rewrite decide_True by congruence. simpl. by rewrite Hp.
  - rewrite decide_False by congruence. rewrite IH.
    destruct (list_find _ refs) as [[i r']|]; [|done]. simpl.
    by destruct (objs h !! r').
Qed.

Lemma setStatus_collection (st : ProjectState) (h : Heap) (i r : nat)
    (p : Project) (s : Status) :
  wf st h →
  elements h (projects st) !! i = Some r →
  objs h !! r = Some p →
  collection st (setStatus r s h) = <[i := withStatus s p]> (collection st h).
Proof.
  intros (Ha & Hnd & Hv) Hi Hr. unfold collection.
  change (elements (setStatus r s h) (projects st)) with (elements h (projects st)).
  set (refs := elements h (projects st)) in *.
  assert (Hv' : Forall (fun r' => r' < length (objs (setStatus r s h))) refs).
  { simpl. by rewrite length_alter. }
  apply list_eq. intros j.
  rewrite deref_lookup by done. simpl.
  destruct (decide (j = i)) as [->|Hne].
  - rewrite Hi. simpl.
    rewrite list_lookup_alter_eq, Hr. simpl.
    rewrite list_lookup_insert_eq; [done|].
    rewrite deref_length by done. by eapply lookup_lt_Some.
  - rewrite list_lookup_insert_ne by done.
    rewrite deref_lookup by done.
    destruct (refs !! j) as [r'|] eqn:Hj; [|done]. simpl.
    apply list_lookup_alter_ne. intros ->.
    apply Hne. by eapply NoDup_lookup.
Qed.

Lemma setStatus_wf (st : ProjectState) (h : Heap) (r : nat) (s : Status) :
  wf st h → wf st (setStatus r s h).
Proof.
  intros (Ha & Hnd & Hv). unfold wf.
  change (elements (setStatus r s h) (projects st)) with (elements h (projects st)).
  simpl. by rewrite length_alter.
Qed.

Lemma moveProject_refines (st : ProjectState) (pid : jsstring) (s : Status) (h : Heap) :
  wf st h → Forall sequenceOnly (listeners st) →
  match moved pid s (collection st h) with
  | Some c =>
      wf st (moveProject st pid s h).1 ∧
      collection st (moveProject st pid s h).1 = c ∧
      map callee (moveProject st pid s h).2 = listeners st ∧
      Forall (fun call => argument call ≠ projects st ∧ seen call = c)
             (moveProject st pid s h).2
  | None => moveProject st pid s h = (h, [])
  end.
Proof.
  intros Hwf Hls. pose proof Hwf as (Ha & Hnd & Hv).
  pose proof (findById_collection pid h _ Hv) as Hf.
  fold (collection st h) in Hf.
  unfold moved, moveProject, findById. rewrite Hf. clear Hf.
  destruct (list_find _ (elements h (projects st))) as [[i r]|] eqn:Hfind; [|done].
  apply list_find_Some in Hfind as (Hi & Hid & _). simpl.
  destruct (objs h !! r) as [p|] eqn:Hr; [|done]. simpl.
  destruct (decide (status p = s)) as [Heq|Hne].
  - rewrite !bool_decide_eq_false_2 by (intros Hn; apply Hn; congruence). done.
  - rewrite !bool_decide_eq_true_2 by congruence.
    pose proof (setStatus_wf st h r s Hwf) as Hwf1.
    pose proof (setStatus_collection st h i r p s Hwf Hi Hr) as Hc1.
    set (h1 := setStatus r s h) in *.
    destruct (updateListeners_spec (listeners st) (projects st) h1)
      as (Hext & Hcallee & Hcalls); [apply Hwf1|done|apply Hwf1|].
    split; [by eapply wf_extends|].
    split; [by rewrite (collection_extends st h1)|].
    split; [done|].
    eapply Forall_impl; [exact Hcalls|]. intros call (Harg & _ & Hseen).
    split; [destruct Hwf1 as (? & _); lia|]. by rewrite Hseen.
Qed.

Lemma updateListeners_callees (ls : list Listener) (a : nat) (h : Heap) :
  map callee (updateListeners ls a h).2 = ls.
Proof.
  revert h. induction ls as [|l ls IH]; intros h; simpl; [done|].
  specialize (IH (l (length (arrs h))
                    {| objs := objs h; arrs := arrs h ++ [elements h a] |})).
  destruct (updateListeners ls a _) as [h' calls]. simpl in *. by rewrite IH.
Qed.

Lemma moveProject_silent (st : ProjectState) (pid : jsstring) (s : Status) (h : Heap) :
  wf st h → moved pid s (collection st h) = None → moveProject st pid s h = (h, []).
Proof.
  intros (Ha & Hnd & Hv). pose proof (findById_collection pid h _ Hv) as Hf.
  fold (collection st h) in Hf.
  unfold moved, moveProject, findById. rewrite Hf. clear Hf.
  destruct (list_find _ (elements h (projects st))) as [[i r]|] eqn:Hfind; [|done].
  apply list_find_Some in Hfind as (Hi & Hid & _). simpl.
  destruct (objs h !! r) as [p|]; [|done]. simpl.
  destruct (decide (status p = s)) as [Heq|Hne].
  - rewrite !bool_decide_eq_false_2 by (intros Hn; apply Hn; congruence). done.
  - rewrite !bool_decide_eq_true_2 by congruence. done.
Qed.

(** ** Sequences of operations *)

Lemma moved_ids (pid : jsstring) (s : Status) (c c' : list Project) :
  moved pid s c = Some c' → id <$> c' = id <$> c.
Proof.
  unfold moved. destruct (list_find _ c) as [[i p]|] eqn:Hfind; [|done].
  case_bool_decide; [|done]. intros [= <-].
  apply list_find_Some in Hfind as (Hi & _).
  rewrite list_fmap_insert. apply list_insert_id.
  by rewrite list_lookup_fmap, Hi.
Qed.

Lemma collectionAfter_ids (ops : list Op) (c : list Project) :
  id <$> collectionAfter ops c = (id <$> c) ++ (numberToString <$> draws ops).
Proof.
  revert c. induction ops as [|[l|random t d n|pid s] ops IH]; intros c; simpl.
  - by rewrite app_nil_r.
  - apply IH.
  - rewrite IH, fmap_app. simpl. by rewrite <- app_assoc.
  - rewrite IH. f_equal.
    destruct (moved pid s c) as [c'|] eqn:Hm; [|done]. by apply moved_ids in Hm.
Qed.

Lemma run_refines (ops : list Op) :
  ∀ (st : ProjectState) (h : Heap),
    wf st h →
    Forall sequenceOnly (listeners st) →
    Forall sequenceOnly (registered ops) →
    wf (run ops st h).1 (run ops st h).2.1 ∧
    projects (run ops st h).1 = projects st ∧
    listeners (run ops st h).1 = listeners st ++ registered ops ∧
    collection (run ops st h).1 (run ops st h).2.1
      = collectionAfter ops (collection st h) ∧
    map (fun c => (callee c, seen c)) (run ops st h).2.2
      = observations ops (listeners st) (collection st h) ∧
    Forall (fun c => argument c ≠ projects st) (run ops st h).2.2.
Proof.
  induction ops as [|op ops IH]; intros st h Hwf Hls Hreg.
  { simpl. rewrite app_nil_r. repeat (split; [done|]). constructor. }
  destruct op as [l|random t d n|pid s]; simpl in Hreg |- *.
  - apply Forall_cons in Hreg as [Hl Hreg].
    specialize (IH (addListener st l) h Hwf).
    destruct IH as (Hwf' & Hp & Hl' & Hc & Hobs & Harg);
      [by apply Forall_app; split; [|apply Forall_singleton]|done|].
    destruct (run ops (addListener st l) h) as [st' [h' later]]. simpl in *.
    rewrite <- app_assoc in Hl'. done.
  - destruct (addProject_refines st random t d n h Hwf Hls) as (Hwf1 & Hc1 & Hcal & Hcalls).
    destruct (addProject st random t d n h) as [h1 calls]. simpl in *.
    specialize (IH st h1 Hwf1 Hls Hreg).
    destruct IH as (Hwf' & Hp & Hl' & Hc & Hobs & Harg).
    destruct (run ops st h1) as [st' [h' later]]. simpl in *.
    rewrite Hc1 in Hc, Hobs.
    do 4 (split; [done|]). split.
    + rewrite map_app, Hobs. f_equal.
      unfold round. rewrite <- Hcal. rewrite map_map.
      apply map_ext_Forall. eapply Forall_impl; [exact Hcalls|].
      intros c (_ & Hseen). simpl. by rewrite Hseen.
    + apply Forall_app. split; [|done].
      eapply Forall_impl; [exact Hcalls|]. by intros c (? & _).
  - pose proof (moveProject_refines st pid s h Hwf Hls) as Hmove.
    destruct (moved pid s (collection st h)) as [c1|] eqn:Hm.
    + destruct Hmove as (Hwf1 & Hc1 & Hcal & Hcalls).
      destruct (moveProject st pid s h) as [h1 calls]. simpl in *.
      specialize (IH st h1 Hwf1 Hls Hreg).
      destruct IH as (Hwf' & Hp & Hl' & Hc & Hobs & Harg).
      destruct (run ops st h1) as [st' [h' later]]. simpl in *.
      rewrite Hc1 in Hc, Hobs.
      do 4 (split; [done|]). split.
      * rewrite map_app, Hobs. f_equal.
        unfold round. rewrite <- Hcal. rewrite map_map.
        apply map_ext_Forall. eapply Forall_impl; [exact Hcalls|].
        intros c (_ & Hseen). simpl. by rewrite Hseen.
      * apply Forall_app. split; [|done].
        eapply Forall_impl; [exact Hcalls|]. by intros c (? & _).
    + rewrite Hmove. specialize (IH st h Hwf Hls Hreg).
      destruct (run ops st h) as [st' [h' later]]. simpl in *. done.
Qed.

(** ** Every logged call is a call that was made *)

Lemma updateListeners_delivered (ls : list Listener) :
  ∀ (a : nat) (h : Heap),
    Delivered a (updateListeners ls a h).2 h (updateListeners ls a h).1.
Proof.
  induction ls as [|l ls IH]; intros a h; simpl; [done|].
  specialize (IH a (l (length (arrs h))
                      {| objs := objs h; arrs := arrs h ++ [elements h a] |})).
  destruct (updateListeners ls a _) as [h' calls]. simpl in *.
  pose proof (slice_elements a h) as Hcopy. simpl in Hcopy. rewrite Hcopy.
  repeat split; done.
Qed.

Lemma run_performed (ops : list Op) :
  ∀ (st : ProjectState) (h : Heap),
    Performed ops st h (run ops st h).2.2 (run ops st h).2.1.
Proof.
  induction ops as [|[l|random t d n|pid s] ops IH]; intros st h; simpl.
  - done.
  - specialize (IH (addListener st l) h).
    by destruct (run ops (addListener st l) h) as [st' [h' later]].
  - pose proof (updateListeners_delivered (listeners st) (projects st)
                  (push (projects st) (length (objs h))
                     {| objs := objs h ++ [created random t d n]; arrs := arrs h |})) as Hd.
    pose proof (updateListeners_callees (listeners st) (projects st)
                  (push (projects st) (length (objs h))
                     {| objs := objs h ++ [created random t d n]; arrs := arrs h |})) as Hc.
    unfold addProject. simpl. fold (created random t d n).
    destruct (updateListeners (listeners st) (projects st) _) as [h1 round]. simpl in *.
    specialize (IH st h1). destruct (run ops st h1) as [st' [h' later]]. simpl in *.
    by exists round, later, h1.
  - unfold moveProject.
    destruct (findById pid (projects st) h) as [r|]; simpl.
    + case_bool_decide; simpl.
      * pose proof (updateListeners_delivered (listeners st) (projects st)
                      (setStatus r s h)) as Hd.
        pose proof (updateListeners_callees (listeners st) (projects st)
                      (setStatus r s h)) as Hc.
        destruct (updateListeners (listeners st) (projects st) _) as [h1 round]. simpl in *.
        specialize (IH st h1). destruct (run ops st h1) as [st' [h' later]]. simpl in *.
        by exists round, later, h1.
      * specialize (IH st h). by destruct (run ops st h) as [st' [h' later]].
    + specialize (IH st h). by destruct (run ops st h) as [st' [h' later]].
Qed.

(** ** The program's own states and listeners *)

Lemma newProjectState_wf (h : Heap) : wf (newProjectState h).1 (newProjectState h).2.
Proof.
  unfold wf, elements. simpl. rewrite length_app, list_lookup_middle by done. simpl.
  split; [lia|]. split; constructor.
Qed.

Lemma frame_alloc_array (a : nat) (h : Heap) (l : list nat) :
  frame (eq a) h {| objs := objs h; arrs := arrs h ++ [l] |}.
Proof.
  split; [done|]. split; simpl.
  - rewrite length_app. lia.
  - intros b Hb _. by rewrite lookup_app_l.
Qed.

Lemma projectListListener_sequenceOnly (type : ListType) :
  sequenceOnly (projectListListener type).
Proof. intros a h _. apply frame_alloc_array. Qed.

Lemma rewriting_sequenceOnly (f : list nat -> list nat) : sequenceOnly (rewriting f).
Proof.
  intros a h _. split; [done|]. split; simpl.
  - by rewrite length_alter.
  - intros b _ Hne. by apply list_lookup_alter_ne.
Qed.

Lemma board_wf : wf board.1 board.2.
Proof. apply (newProjectState_wf emptyHeap). Qed.

Lemma board_listeners : Forall sequenceOnly (listeners board.1).
Proof.
  unfold board; simpl.
  apply Forall_cons; split; [|apply Forall_singleton];
    apply projectListListener_sequenceOnly.
Qed.

(** ** The store's operations *)

Lemma addProject_round (st : ProjectState) (random : number) (t d : jsstring)
    (n : number) (h : Heap) :
  wf st h → Forall sequenceOnly (listeners st) →
  Forall (fun call =>
            argument call ≠ projects st ∧
            items call = elements h (projects st) ++ [length (objs h)] ∧
            seen call = collection st h ++ [created random t d n])
         (addProject st random t d n h).2.
Proof.
  intros Hwf Hls. unfold addProject. fold (created random t d n).
  pose proof (push_new_wf st h (created random t d n) Hwf) as Hwf1.
  pose proof (push_new_collection st h (created random t d n) Hwf) as Hc1.
  pose proof (push_new_elements h (projects st) (created random t d n)
                (proj1 Hwf)) as He1.
  simpl in Hwf1, Hc1, He1 |- *.
  set (h1 := push (projects st) (length (objs h)) _) in *.
  destruct (updateListeners_spec (listeners st) (projects st) h1)
    as (_ & _ & Hcalls); [apply Hwf1|done|apply Hwf1|].
  eapply Forall_impl; [exact Hcalls|]. intros call (Harg & Hit & Hseen).
  split; [destruct Hwf1 as (? & _); lia|]. split; [by rewrite Hit|].
  by rewrite Hseen.
Qed.

Lemma moveProject_round (st : ProjectState) (pid : jsstring) (s : Status) (h : Heap)
    (i : nat) (p : Project) :
  wf st h → Forall sequenceOnly (listeners st) →
  list_find (fun q => id q = pid) (collection st h) = Some (i, p) →
  status p ≠ s →
  ∃ r, elements h (projects st) !! i = Some r ∧
       objs h !! r = Some p ∧
       moveProject st pid s h
       = updateListeners (listeners st) (projects st) (setStatus r s h) ∧
       elements (moveProject st pid s h).1 (projects st) = elements h (projects st) ∧
       Forall (fun call =>
                 argument call ≠ projects st ∧
                 items call = elements h (projects st) ∧
                 seen call = <[i := withStatus s p]> (collection st h))
              (moveProject st pid s h).2.
Proof.
  intros Hwf Hls Hfind Hne. pose proof Hwf as (Ha & Hnd & Hv).
  pose proof (findById_collection pid h _ Hv) as Hf.
  fold (collection st h) in Hf. rewrite Hfind in Hf.
  unfold moveProject, findById.
  destruct (list_find _ (elements h (projects st))) as [[i' r]|] eqn:Hrefs; [|done].
  apply list_find_Some in Hrefs as (Hi & _). simpl in Hf.
  destruct (objs h !! r) as [p'|] eqn:Hr; [|done]. simpl in Hf.
  injection Hf as <- <-. simpl. rewrite Hr. simpl.
  rewrite bool_decide_eq_true_2 by congruence.
  exists r. split; [done|]. split; [done|]. split; [done|].
  pose proof (setStatus_wf st h r s Hwf) as Hwf1.
  pose proof (setStatus_collection st h i r p s Hwf Hi Hr) as Hc1.
  destruct (updateListeners_spec (listeners st) (projects st) (setStatus r s h))
    as (Hext & _ & Hcalls); [apply Hwf1|done|apply Hwf1|].
  split; [by rewrite (extends_elements (setStatus r s h))|].
  eapply Forall_impl; [exact Hcalls|]. intros call (Harg & Hit & Hseen).
  split; [simpl in Harg; lia|]. split; [done|].
  by rewrite Hseen.
Qed.

(** C1: [addProject] makes the collection one longer: the new last element
    is a project with the given title, description and people count, status
    [Active] and the string form of the random draw as id, and the elements
    before it are as they were.  It then really calls every registered
    listener once, in registration order ([Delivered]): each is applied to a
    new array, not the store's own, that holds the references of the store's
    array, the new project's included, and through them the whole
    collection; the heap returned is the heap the last listener returned.
    Proved for all arguments, valid or not. *)
Theorem addProject_appends_active_and_notifies
    (st : ProjectState) (h : Heap) (random : number) (t d : jsstring) (n : number) :
  wf st h →
  Forall sequenceOnly (listeners st) →
  length (collection st (addProject st random t d n h).1) = S (length (collection st h)) ∧
  collection st (addProject st random t d n h).1
    = collection st h ++
      [{| id := numberToString random; title := t; description := d;
          people := n; status := Active |}] ∧
  map callee (addProject st random t d n h).2 = listeners st ∧
  Delivered (projects st) (addProject st random t d n h).2
    (push (projects st) (length (objs h))
       {| objs := objs h ++
            [{| id := numberToString random; title := t; description := d;
                people := n; status := Active |}];
          arrs := arrs h |})
    (addProject st random t d n h).1 ∧
  Forall (fun call =>
            argument call ≠ projects st ∧
            items call = elements h (projects st) ++ [length (objs h)] ∧
            seen call = collection st h ++
              [{| id := numberToString random; title := t; description := d;
                  people := n; status := Active |}])
         (addProject st random t d n h).2.
Proof.
  intros Hwf Hls.
  destruct (addProject_refines st random t d n h Hwf Hls) as (_ & Hc & Hcal & _).
  split; [rewrite Hc, length_app; simpl; lia|].
  split; [done|]. split; [done|].
  split; [apply updateListeners_delivered|].
  apply (addProject_round st random t d n h Hwf Hls).
Qed.

Lemma addProject_appends_witness :
  length (collection board.1
            (addProject board.1 (Finite 5 (-1)) (str "Plan") (str "Write the plan") (num 3)
               board.2).1)
  = S (length (collection board.1 board.2)) ∧
  collection board.1
    (addProject board.1 (Finite 5 (-1)) (str "Plan") (str "Write the plan") (num 3) board.2).1
  = collection board.1 board.2 ++
    [{| id := numberToString (Finite 5 (-1)); title := str "Plan";
        description := str "Write the plan"; people := num 3; status := Active |}] ∧
  map callee
    (addProject board.1 (Finite 5 (-1)) (str "Plan") (str "Write the plan") (num 3) board.2).2
  = listeners board.1 ∧
  Delivered (projects board.1)
    (addProject board.1 (Finite 5 (-1)) (str "Plan") (str "Write the plan") (num 3) board.2).2
    (push (projects board.1) (length (objs board.2))
       {| objs := objs board.2 ++
            [{| id := numberToString (Finite 5 (-1)); title := str "Plan";
                description := str "Write the plan"; people := num 3;
                status := Active |}];
          arrs := arrs board.2 |})
    (addProject board.1 (Finite 5 (-1)) (str "Plan") (str "Write the plan") (num 3)
       board.2).1 ∧
  Forall (fun call =>
            argument call ≠ projects board.1 ∧
            items call = elements board.2 (projects board.1) ++ [length (objs board.2)] ∧
            seen call = collection board.1 board.2 ++
              [{| id := numberToString (Finite 5 (-1)); title := str "Plan";
                  description := str "Write the plan"; people := num 3;
                  status := Active |}])
         (addProject board.1 (Finite 5 (-1)) (str "Plan") (str "Write the plan") (num 3)
            board.2).2.
Proof.
  apply addProject_appends_active_and_notifies; [exact board_wf|exact board_listeners].
Defined.

(** C2: when the first project carrying the id [pid] stands at position [i]
    and its status is not [s], [moveProject pid s] writes the status of that
    project's object and makes exactly one notification round: every
    registered listener is really called once, in order ([Delivered]), each
    applied to a new array, not the store's own, that holds the references of
    the store's array; what each is handed has the length of the collection,
    at position [i] a project with status [s] and the id, title, description
    and people of the project that was there, and at every other position
    the project that was there.  The store's collection afterwards is that
    same sequence. *)
Theorem moveProject_changes_status_only
    (st : ProjectState) (h : Heap) (pid : jsstring) (s : Status) (i : nat) (p : Project) :
  wf st h →
  Forall sequenceOnly (listeners st) →
  list_find (fun q => id q = pid) (collection st h) = Some (i, p) →
  status p ≠ s →
  map callee (moveProject st pid s h).2 = listeners st ∧
  (∃ r, elements h (projects st) !! i = Some r ∧
        objs h !! r = Some p ∧
        Delivered (projects st) (moveProject st pid s h).2 (setStatus r s h)
          (moveProject st pid s h).1) ∧
  Forall (fun call =>
            argument call ≠ projects st ∧
            items call = elements h (projects st) ∧
            length (seen call) = length (collection st h) ∧
            (∃ q, seen call !! i = Some q ∧ status q = s ∧ id q = id p ∧
                  title q = title p ∧ description q = description p ∧
                  people q = people p) ∧
            (∀ j, j ≠ i → seen call !! j = collection st h !! j))
         (moveProject st pid s h).2 ∧
  collection st (moveProject st pid s h).1 = <[i := withStatus s p]> (collection st h).
Proof.
  intros Hwf Hls Hfind Hne.
  pose proof (moveProject_refines st pid s h Hwf Hls) as Hmove.
  unfold moved in Hmove. rewrite Hfind, bool_decide_eq_true_2 in Hmove by done.
  destruct Hmove as (_ & Hc & Hcal & _).
  destruct (moveProject_round st pid s h i p Hwf Hls Hfind Hne)
    as (r & Hi & Hr & Hrun & _ & Hcalls).
  apply list_find_Some in Hfind as (Hci & _).
  split; [done|]. split; [|split; [|done]].
  - exists r. split; [done|]. split; [done|].
    rewrite Hrun. apply updateListeners_delivered.
  - eapply Forall_impl; [exact Hcalls|]. intros call (Harg & Hit & ->).
    split; [done|]. split; [done|]. split; [by rewrite length_insert|]. split.
    + exists (withStatus s p). split; [|done].
      apply list_lookup_insert_eq. by eapply lookup_lt_Some.
    + intros j Hj. by apply list_lookup_insert_ne.
Qed.

(** C3: [moveProject pid s] does nothing at all, and calls no listener, when
    no project of the collection has the id [pid], and when the first project
    carrying that id already has status [s]: the heap, and with it every
    field of every project, is returned as it was. *)
Theorem moveProject_unknown_or_same_status_is_silent
    (st : ProjectState) (h : Heap) (pid : jsstring) (s : Status) :
  wf st h →
  (Forall (fun p => id p ≠ pid) (collection st h) ∨
   ∃ i p, list_find (fun q => id q = pid) (collection st h) = Some (i, p) ∧ status p = s) →
  moveProject st pid s h = (h, []).
Proof.
  intros Hwf Hcase. apply moveProject_silent; [done|]. unfold moved.
  destruct Hcase as [Hnone|(i & p & Hfind & Hs)].
  - apply (list_find_None (fun q => id q = pid)) in Hnone. by rewrite Hnone.
  - rewrite Hfind. by rewrite bool_decide_eq_false_2 by (intros Hn; by apply Hn).
Qed.

Lemma sample_wf : wf sample.1 sample.2.
Proof.
  pose proof (run_refines sampleOps board.1 board.2 board_wf board_listeners) as H.
  unfold sample. destruct (run sampleOps board.1 board.2) as [st [h calls]].
  apply H. constructor.
Qed.

Lemma sample_listeners : Forall sequenceOnly (listeners sample.1).
Proof.
  unfold sample, board; simpl.
  apply Forall_cons; split; [|apply Forall_singleton];
    apply projectListListener_sequenceOnly.
Qed.

Lemma moveProject_changes_status_witness :
  map callee (moveProject sample.1 (str "0.75") Finished sample.2).2 = listeners sample.1 ∧
  (∃ r, elements sample.2 (projects sample.1) !! 1 = Some r ∧
        objs sample.2 !! r
        = Some {| id := str "0.75"; title := str "Ship";
                  description := str "Ship the product"; people := num 2;
                  status := Active |} ∧
        Delivered (projects sample.1)
          (moveProject sample.1 (str "0.75") Finished sample.2).2
          (setStatus r Finished sample.2)
          (moveProject sample.1 (str "0.75") Finished sample.2).1) ∧
  Forall (fun call =>
            argument call ≠ projects sample.1 ∧
            items call = elements sample.2 (projects sample.1) ∧
            length (seen call) = length (collection sample.1 sample.2) ∧
            (∃ q, seen call !! 1 = Some q ∧ status q = Finished ∧
                  id q = str "0.75" ∧ title q = str "Ship" ∧
                  description q = str "Ship the product" ∧ people q = num 2) ∧
            (∀ j, j ≠ 1 → seen call !! j = collection sample.1 sample.2 !! j))
         (moveProject sample.1 (str "0.75") Finished sample.2).2 ∧
  collection sample.1 (moveProject sample.1 (str "0.75") Finished sample.2).1
  = <[1 := withStatus Finished
             {| id := str "0.75"; title := str "Ship";
                description := str "Ship the product"; people := num 2;
                status := Active |}]> (collection sample.1 sample.2).
Proof.
  apply (moveProject_changes_status_only sample.1 sample.2 (str "0.75") Finished 1
           {| id := str "0.75"; title := str "Ship"; description := str "Ship the product";
              people := num 2; status := Active |}).
  - exact sample_wf.
  - exact sample_listeners.
  - vm_compute. reflexivity.
  - simpl. discriminate.
Defined.

Lemma moveProject_silent_witness :
  moveProject sample.1 (str "0.5") Finished sample.2 = (sample.2, []) ∧
  moveProject sample.1 (str "0.25") Active sample.2 = (sample.2, []).
Proof.
  split.
  - apply moveProject_unknown_or_same_status_is_silent; [exact sample_wf|].
    left. vm_compute. repeat constructor; discriminate.
  - apply moveProject_unknown_or_same_status_is_silent; [exact sample_wf|].
    right. exists 0, {| id := str "0.25"; title := str "Plan";
                        description := str "Write the plan"; people := num 3;
                        status := Active |}.
    split; vm_compute; reflexivity.
Defined.

(** ** Snapshots *)

(** C4, as stated, fails: a snapshot is not immutable.  The board's
    listeners never write to the array they are handed, yet after a second
    [moveProject] the array handed over in the first round no longer shows
    what its listener saw: its elements are the store's own objects, and the
    second move wrote the status of one of them. *)
Lemma earlier_snapshot_shows_later_move :
  ¬ Forall (fun c =>
              deref (run [OpMoveProject (str "0.25") Finished;
                          OpMoveProject (str "0.75") Finished] sample.1 sample.2).2.1
                (elements (run [OpMoveProject (str "0.25") Finished;
                                OpMoveProject (str "0.75") Finished] sample.1 sample.2).2.1
                   (argument c))
              = seen c)
      (run [OpMoveProject (str "0.25") Finished;
            OpMoveProject (str "0.75") Finished] sample.1 sample.2).2.2.
Proof.
  intros H. vm_compute in H. apply Forall_cons in H as [H _]. discriminate H.
Qed.

(** C4, amended: over any sequence of store operations, with listeners that
    rewrite the sequences they are handed in any way (adding, removing or
    replacing elements), every listener is really applied to a new array that
    is never the store's own and holds, in order, the references the store's
    array holds at that moment ([Performed]): a copy one level deep.  What a
    listener is handed in any round is the whole collection as the store's
    operations alone have made it ([observations] and [collectionAfter]
    never apply a listener), so nothing a listener did to the sequence of an
    earlier snapshot shows in a later one, nor in the store's collection.
    Nothing is said of the projects themselves staying as they were: they
    are shared with the store. *)
Theorem snapshots_isolate_the_store (ops : list Op) (st : ProjectState) (h : Heap) :
  wf st h →
  Forall sequenceOnly (listeners st) →
  Forall sequenceOnly (registered ops) →
  Performed ops st h (run ops st h).2.2 (run ops st h).2.1 ∧
  Forall (fun c => argument c ≠ projects st) (run ops st h).2.2 ∧
  map (fun c => (callee c, seen c)) (run ops st h).2.2
    = observations ops (listeners st) (collection st h) ∧
  collection (run ops st h).1 (run ops st h).2.1 = collectionAfter ops (collection st h).
Proof.
  intros Hwf Hls Hreg.
  destruct (run_refines ops st h Hwf Hls Hreg) as (_ & _ & _ & Hc & Hobs & Harg).
  split; [apply run_performed|done].
Qed.

Lemma meddled_wf : wf meddled.1 meddled.2.
Proof. apply (newProjectState_wf emptyHeap). Qed.

Lemma meddled_listeners : Forall sequenceOnly (listeners meddled.1).
Proof.
  unfold meddled; simpl.
  apply Forall_cons; split; [|apply Forall_singleton]; apply rewriting_sequenceOnly.
Qed.

Lemma snapshots_isolate_witness :
  Performed (sampleOps ++ [OpMoveProject (str "0.25") Finished]) meddled.1 meddled.2
    (run (sampleOps ++ [OpMoveProject (str "0.25") Finished]) meddled.1 meddled.2).2.2
    (run (sampleOps ++ [OpMoveProject (str "0.25") Finished]) meddled.1 meddled.2).2.1 ∧
  Forall (fun c => argument c ≠ projects meddled.1)
    (run (sampleOps ++ [OpMoveProject (str "0.25") Finished]) meddled.1 meddled.2).2.2 ∧
  map (fun c => (callee c, seen c))
    (run (sampleOps ++ [OpMoveProject (str "0.25") Finished]) meddled.1 meddled.2).2.2
  = observations (sampleOps ++ [OpMoveProject (str "0.25") Finished])
      (listeners meddled.1) (collection meddled.1 meddled.2) ∧
  collection
    (run (sampleOps ++ [OpMoveProject (str "0.25") Finished]) meddled.1 meddled.2).1
    (run (sampleOps ++ [OpMoveProject (str "0.25") Finished]) meddled.1 meddled.2).2.1
  = collectionAfter (sampleOps ++ [OpMoveProject (str "0.25") Finished])
      (collection meddled.1 meddled.2).
Proof.
  apply snapshots_isolate_the_store.
  - exact meddled_wf.
  - exact meddled_listeners.
  - simpl. constructor.
Defined.

(** The copy is one level deep.  In every notification round each
    listener is really applied to an array holding the very references of
    the store's array, so the elements of a snapshot are the store's own
    objects; and a listener that writes a field of an element
    ([items[0].status = s]) thereby changes the first project of the store's
    collection. *)
Theorem snapshot_elements_are_the_stores_objects
    (st : ProjectState) (h : Heap) (ls : list Listener) (s : Status)
    (p : Project) (c : list Project) :
  wf st h →
  Forall sequenceOnly ls →
  collection st h = p :: c →
  Delivered (projects st) (updateListeners ls (projects st) h).2 h
    (updateListeners ls (projects st) h).1 ∧
  Forall (fun call => items call = elements h (projects st) ∧
                      seen call = p :: c)
         (updateListeners ls (projects st) h).2 ∧
  collection st (updateListeners [restatusFirst s] (projects st) h).1
  = withStatus s p :: c.
Proof.
  intros Hwf Hls Hc. pose proof Hwf as (Ha & Hnd & Hv).
  split; [apply updateListeners_delivered|]. split.
  - destruct (updateListeners_spec ls (projects st) h Ha Hls Hv) as (_ & _ & Hcalls).
    eapply Forall_impl; [exact Hcalls|]. intros call (_ & Hit & Hseen).
    split; [done|]. by rewrite Hseen.
  - change ((updateListeners [restatusFirst s] (projects st) h).1)
      with (restatusFirst s (slice (projects st) h).1 (slice (projects st) h).2).
    unfold restatusFirst. rewrite slice_elements.
    destruct (elements h (projects st)) as [|r rest] eqn:He.
    { unfold collection in Hc. rewrite He in Hc. discriminate Hc. }
    assert (Hr : objs h !! r = Some p).
    { pose proof (deref_lookup h (r :: rest) 0 Hv) as H0.
      pose proof Hc as Hc'. unfold collection in Hc'. rewrite He in Hc'.
      rewrite Hc' in H0. simpl in H0. done. }
    pose proof (wf_extends st h _ Hwf (slice_extends (projects st) h)) as Hwf1.
    pose proof (collection_extends st h _ Hwf (slice_extends (projects st) h)) as Hc1.
    rewrite (setStatus_collection st (slice (projects st) h).2 0 r p s Hwf1).
    + by rewrite Hc1, Hc.
    + rewrite (extends_elements h) by (done || apply slice_extends). by rewrite He.
    + exact Hr.
Qed.

Lemma snapshot_elements_witness :
  Delivered (projects sample.1)
    (updateListeners (listeners sample.1) (projects sample.1) sample.2).2 sample.2
    (updateListeners (listeners sample.1) (projects sample.1) sample.2).1 ∧
  Forall (fun call =>
            items call = elements sample.2 (projects sample.1) ∧
            seen call
            = {| id := str "0.25"; title := str "Plan"; description := str "Write the plan";
                 people := num 3; status := Active |}
              :: [{| id := str "0.75"; title := str "Ship";
                     description := str "Ship the product"; people := num 2;
                     status := Active |}])
         (updateListeners (listeners sample.1) (projects sample.1) sample.2).2 ∧
  collection sample.1
    (updateListeners [restatusFirst Finished] (projects sample.1) sample.2).1
  = withStatus Finished
      {| id := str "0.25"; title := str "Plan"; description := str "Write the plan";
         people := num 3; status := Active |}
    :: [{| id := str "0.75"; title := str "Ship"; description := str "Ship the product";
           people := num 2; status := Active |}].
Proof.
  apply snapshot_elements_are_the_stores_objects.
  - exact sample_wf.
  - exact sample_listeners.
  - reflexivity.
Defined.

(** ** Project ids *)

(** C5, as stated, fails: two calls of [addProject] that draw the same
    random number give two projects the same id. *)
Lemma equal_draws_share_an_id :
  ¬ NoDup (id <$>
      collection board.1
        (run [OpAddProject (Finite 5 (-1)) (str "Plan") (str "Write the plan") (num 3);
              OpAddProject (Finite 5 (-1)) (str "Ship") (str "Ship the product") (num 2)]
           board.1 board.2).2.1).
Proof.
  vm_compute. intros H. apply NoDup_cons in H as [Hin _].
  apply Hin. apply elem_of_cons. by left.
Qed.

(** C5, amended: the ids of the projects in the store are, in order, the
    ids it held before followed by the string forms of the random numbers
    drawn by the [addProject] calls; no operation checks a draw against the
    ids in use or changes an id afterwards.  So no two projects share an id
    exactly when those strings are pairwise distinct. *)
Theorem ids_are_the_printed_draws (ops : list Op) (st : ProjectState) (h : Heap) :
  wf st h →
  Forall sequenceOnly (listeners st) →
  Forall sequenceOnly (registered ops) →
  id <$> collection (run ops st h).1 (run ops st h).2.1
    = (id <$> collection st h) ++ (numberToString <$> draws ops) ∧
  (NoDup (id <$> collection (run ops st h).1 (run ops st h).2.1)
   ↔ NoDup ((id <$> collection st h) ++ (numberToString <$> draws ops))).
Proof.
  intros Hwf Hls Hreg.
  destruct (run_refines ops st h Hwf Hls Hreg) as (_ & _ & _ & Hc & _).
  rewrite Hc, collectionAfter_ids. done.
Qed.

Lemma ids_are_the_printed_draws_witness :
  id <$> collection (run sampleOps board.1 board.2).1 (run sampleOps board.1 board.2).2.1
    = (id <$> collection board.1 board.2) ++ (numberToString <$> draws sampleOps) ∧
  (NoDup (id <$> collection (run sampleOps board.1 board.2).1
                   (run sampleOps board.1 board.2).2.1)
   ↔ NoDup ((id <$> collection board.1 board.2) ++ (numberToString <$> draws sampleOps))).
Proof.
  apply ids_are_the_printed_draws.
  - exact board_wf.
  - exact board_listeners.
  - simpl. constructor.
Defined.

(** ** Listeners *)

Lemma notifyLive_enough (fuel : nat) :
  ∀ (pending : list LiveListener) (a : nat) (h : Heap),
    list_sum (map weight pending) ≤ fuel →
    ∃ pushed h' calls,
      notifyLive fuel pending a h = Some (pushed, (h', calls)) ∧
      pushed = concat (map registers (pending ++ pushed)) ∧
      map callee calls = map body (pending ++ pushed) ∧
      Delivered a calls h h'.
Proof.
  induction fuel as [|fuel IH]; intros pending a h Hw.
  - destruct pending as [|[b rs] rest]; simpl in *; [|lia].
    by exists [], h, [].
  - destruct pending as [|[b rs] rest]; simpl in *; [by exists [], h, []|].
    destruct (IH (rest ++ rs) a
                (b (length (arrs h)) {| objs := objs h; arrs := arrs h ++ [elements h a] |}))
      as (pushed & h' & calls & Heq & Hp & Hc & Hd).
    { rewrite map_app, list_sum_app. lia. }
    rewrite Heq. eexists _, _, _. split; [reflexivity|].
    rewrite <- app_assoc in Hp, Hc.
    split; [simpl; f_equal; exact Hp|]. split; [simpl; by rewrite Hc|].
    simpl. pose proof (slice_elements a h) as Hcopy. simpl in Hcopy. rewrite Hcopy.
    repeat split; done.
Qed.

Lemma weight_flat (ls : list Listener) :
  list_sum (map weight (map (fun l => Live l []) ls)) = length ls.
Proof. induction ls as [|l ls IH]; simpl; [done|]. by rewrite IH. Qed.

Lemma notifyLive_flat (ls : list Listener) :
  ∀ (fuel a : nat) (h : Heap),
    length ls ≤ fuel →
    notifyLive fuel (map (fun l => Live l []) ls) a h = Some ([], updateListeners ls a h).
Proof.
  induction ls as [|l ls IH]; intros fuel a h Hf; simpl; [by destruct fuel|].
  destruct fuel as [|fuel]; [simpl in Hf; lia|]. simpl. rewrite app_nil_r.
  rewrite IH by (simpl in Hf; lia).
  by destruct (updateListeners ls a _) as [h' calls].
Qed.

Lemma updateListenersLive_spec (st : LiveState) (h : Heap) :
  ∃ pushed h' calls,
    updateListenersLive st h
    = Some ({| liveListeners := liveListeners st ++ pushed;
               liveProjects := liveProjects st |}, (h', calls)) ∧
    pushed = concat (map registers (liveListeners st ++ pushed)) ∧
    map callee calls = map body (liveListeners st ++ pushed) ∧
    Delivered (liveProjects st) calls h h'.
Proof.
  destruct (notifyLive_enough (list_sum (map weight (liveListeners st)))
              (liveListeners st) (liveProjects st) h (le_n _))
    as (pushed & h' & calls & Heq & Hp & Hc & Hd).
  exists pushed, h', calls. unfold updateListenersLive. by rewrite Heq.
Qed.

Lemma updateListenersLive_flat (st : ProjectState) (h : Heap) :
  updateListenersLive (flat st) h
  = Some (flat st, updateListeners (listeners st) (projects st) h).
Proof.
  unfold updateListenersLive, flat. simpl.
  rewrite weight_flat, notifyLive_flat by done. by rewrite app_nil_r.
Qed.

(** C10, as stated, fails: a listener may register a listener during the
    round.  On a new store whose only listener registers a second one when
    it is called, [addProject] does not leave the listener list as it was,
    and it calls a listener that was not registered before the operation. *)
Lemma listener_registered_in_round_is_called :
  ¬ ∃ h' calls,
      addProjectLive lateBoard.1 (Finite 5 (-1)) (str "Plan") (str "Write the plan")
        (num 3) lateBoard.2
      = Some (lateBoard.1, (h', calls)) ∧
      map callee calls = map body (liveListeners lateBoard.1).
Proof.
  intros (h' & calls & Heq & _). vm_compute in Heq.
  injection Heq as Hl _. discriminate Hl.
Qed.

(** C10, amended: [addListener] appends the listener to the listener list
    and does nothing else.  [addProject] and [moveProject] never write the
    listener list themselves: after either, the list is the list from before,
    in the same order, followed by the listeners that the listeners called
    in the round registered.  The round really calls ([Delivered]), in
    order, the listeners registered before the operation and then those
    registered during the round, and [moveProject] calls nobody when it is a
    no-op.  So when no listener registers a listener, the listener list is
    unchanged and the calls go to exactly the listeners registered before the
    operation: the operations are then [addProject] and [moveProject] as
    modelled above. *)
Theorem listener_list_grows_only_by_registration :
  (∀ (st : LiveState) (l : LiveListener),
     liveListeners (addListenerLive st l) = liveListeners st ++ [l] ∧
     liveProjects (addListenerLive st l) = liveProjects st) ∧
  (∀ (st : LiveState) (random : number) (t d : jsstring) (n : number) (h : Heap),
     ∃ pushed h' calls,
       addProjectLive st random t d n h
       = Some ({| liveListeners := liveListeners st ++ pushed;
                  liveProjects := liveProjects st |}, (h', calls)) ∧
       pushed = concat (map registers (liveListeners st ++ pushed)) ∧
       map callee calls = map body (liveListeners st ++ pushed) ∧
       Delivered (liveProjects st) calls
         (push (liveProjects st) (length (objs h))
            {| objs := objs h ++ [created random t d n]; arrs := arrs h |})
         h') ∧
  (∀ (st : LiveState) (pid : jsstring) (s : Status) (h : Heap),
     moveProjectLive st pid s h = Some (st, (h, [])) ∨
     ∃ r pushed h' calls,
       findById pid (liveProjects st) h = Some r ∧
       moveProjectLive st pid s h
       = Some ({| liveListeners := liveListeners st ++ pushed;
                  liveProjects := liveProjects st |}, (h', calls)) ∧
       pushed = concat (map registers (liveListeners st ++ pushed)) ∧
       map callee calls = map body (liveListeners st ++ pushed) ∧
       Delivered (liveProjects st) calls (setStatus r s h) h') ∧
  (∀ (st : ProjectState) (random : number) (t d : jsstring) (n : number)
     (pid : jsstring) (s : Status) (h : Heap),
     addProjectLive (flat st) random t d n h = Some (flat st, addProject st random t d n h) ∧
     moveProjectLive (flat st) pid s h = Some (flat st, moveProject st pid s h) ∧
     map callee (addProject st random t d n h).2 = listeners st ∧
     (map callee (moveProject st pid s h).2 = listeners st ∨
      moveProject st pid s h = (h, []))).
Proof.
  split; [done|]. split; [|split].
  - intros st random t d n h. unfold addProjectLive. simpl.
    apply updateListenersLive_spec.
  - intros st pid s h. unfold moveProjectLive.
    destruct (findById pid (liveProjects st) h) as [r|]; [|by left].
    case_bool_decide; [right|by left].
    destruct (updateListenersLive_spec st (setStatus r s h))
      as (pushed & h' & calls & Heq & Hp & Hc & Hd).
    by exists r, pushed, h', calls.
  - intros st random t d n pid s h. split; [|split; [|split]].
    + unfold addProjectLive, addProject. simpl. apply updateListenersLive_flat.
    + unfold moveProjectLive, moveProject. simpl.
      destruct (findById pid (projects st) h) as [r|]; [|done].
      case_bool_decide; [|done]. apply updateListenersLive_flat.
    + unfold addProject. simpl. apply updateListeners_callees.
    + unfold moveProject.
      destruct (findById pid (projects st) h) as [r|]; [|by right].
      case_bool_decide; [left|by right]. apply updateListeners_callees.
Qed.

(** ** The form *)

Lemma submitHandler_unfold (ToNumber : jsstring -> number) (random : number)
    (this : ProjectInput) (st : ProjectState) (h : Heap) :
  submitHandler ToNumber random this st h
  = (clearInputs this, (gatherUserInputVaues ToNumber this).1,
     addProject st random (titleInputElement this) (descriptionInputElement this)
       (ToNumber (peopleInputElement this)) h).
Proof. reflexivity. Qed.

(** C6: the code does not do what the claim says.  [gatherUserInputVaues]
    raises the alert on an invalid input and then goes on to return the three
    values, so [submitHandler] calls [addProject] on every submission: its
    heap and listener calls are those of [addProject] on the raw values.
    Submitting the empty form on the new board raises the alert and leaves one
    project, with an empty title and description, in the store. *)
Theorem submitHandler_adds_after_the_alert (ToNumber : jsstring -> number) (random : number) :
  (∀ (this : ProjectInput) (st : ProjectState) (h : Heap),
     (submitHandler ToNumber random this st h).2
     = addProject st random (titleInputElement this) (descriptionInputElement this)
         (ToNumber (peopleInputElement this)) h) ∧
  (submitHandler ToNumber random blankForm board.1 board.2).1.2 = [alertMessage] ∧
  collection board.1 (submitHandler ToNumber random blankForm board.1 board.2).2.1
  = [{| id := numberToString random; title := []; description := [];
        people := ToNumber []; status := Active |}].
Proof.
  split; [done|]. split; [reflexivity|].
  rewrite submitHandler_unfold. simpl.
  destruct (addProject_refines board.1 random [] [] (ToNumber []) board.2
              board_wf board_listeners) as (_ & Hc & _).
  exact Hc.
Qed.

(** C7: the code does not do what the claim says.  The people field is
    handed to [validate] as a string, so its [min] and [max] bounds are never
    compared and the field only has to be non-blank; and an input that fails
    validation is passed on all the same.  A form asking for 99 people raises
    no alert and is added with the converted count; the empty form is added
    with an empty title. *)
Theorem submitHandler_passes_unchecked_values (ToNumber : jsstring -> number)
    (random : number) :
  (∀ p : jsstring,
     validate {| value := VString p; required := true; minLength := None;
                 maxLength := None; min := Some (num 1); max := Some (num 10) |}
     = nonblank (VString p)) ∧
  ((submitHandler ToNumber random crowdedForm board.1 board.2).1.2 = [] ∧
   collection board.1 (submitHandler ToNumber random crowdedForm board.1 board.2).2.1
   = [{| id := numberToString random; title := str "Plan";
         description := str "Write the plan"; people := ToNumber (str "99");
         status := Active |}] ∧
   validPeople (num 99) = false) ∧
  (collection board.1 (submitHandler ToNumber random blankForm board.1 board.2).2.1
   = [{| id := numberToString random; title := []; description := [];
         people := ToNumber []; status := Active |}] ∧
   validTitle [] = false ∧ validDescription [] = false).
Proof.
  split; [|split].
  - intros p. reflexivity.
  - split; [reflexivity|]. split; [|reflexivity].
    rewrite submitHandler_unfold. simpl.
    destruct (addProject_refines board.1 random (str "Plan") (str "Write the plan")
                (ToNumber (str "99")) board.2 board_wf board_listeners) as (_ & Hc & _).
    exact Hc.
  - split; [|split; reflexivity].
    rewrite submitHandler_unfold. simpl.
    destruct (addProject_refines board.1 random [] [] (ToNumber []) board.2
                board_wf board_listeners) as (_ & Hc & _).
    exact Hc.
Qed.

(** ** Reachable states *)

(** Every state the program can reach is well formed.  After any sequence
    of operations on a new store, the store's array is the one made with the
    store, it exists and holds distinct references to existing objects, and
    the listener list is exactly the listeners registered, in the order of
    registration; so it holds only sequence-only listeners as long as only
    such are registered, and the hypotheses of the theorems above hold
    throughout a run. *)
Theorem reachable_states_are_well_formed (ops : list Op) (h0 : Heap) :
  Forall sequenceOnly (registered ops) →
  wf (run ops (newProjectState h0).1 (newProjectState h0).2).1
     (run ops (newProjectState h0).1 (newProjectState h0).2).2.1 ∧
  projects (run ops (newProjectState h0).1 (newProjectState h0).2).1 = length (arrs h0) ∧
  listeners (run ops (newProjectState h0).1 (newProjectState h0).2).1 = registered ops ∧
  Forall sequenceOnly (listeners (run ops (newProjectState h0).1 (newProjectState h0).2).1).
Proof.
  intros Hreg.
  destruct (run_refines ops (newProjectState h0).1 (newProjectState h0).2
              (newProjectState_wf h0) (Forall_nil_2 _) Hreg) as (Hwf & Hp & Hl & _).
  split; [done|]. split; [done|]. split; [done|]. by rewrite Hl.
Qed.

Lemma reachable_states_witness :
  wf (run (OpAddListener (projectListListener active) :: sampleOps)
        (newProjectState emptyHeap).1 (newProjectState emptyHeap).2).1
     (run (OpAddListener (projectListListener active) :: sampleOps)
        (newProjectState emptyHeap).1 (newProjectState emptyHeap).2).2.1 ∧
  projects (run (OpAddListener (projectListListener active) :: sampleOps)
              (newProjectState emptyHeap).1 (newProjectState emptyHeap).2).1
  = length (arrs emptyHeap) ∧
  listeners (run (OpAddListener (projectListListener active) :: sampleOps)
               (newProjectState emptyHeap).1 (newProjectState emptyHeap).2).1
  = registered (OpAddListener (projectListListener active) :: sampleOps) ∧
  Forall sequenceOnly
    (listeners (run (OpAddListener (projectListListener active) :: sampleOps)
                  (newProjectState emptyHeap).1 (newProjectState emptyHeap).2).1).
Proof.
  apply reachable_states_are_well_formed. simpl.
  apply Forall_singleton, projectListListener_sequenceOnly.
Defined.

(** ** More on [validate] *)

Lemma dropWhile_all (f : N -> bool) (s : jsstring) :
  Forall (fun c => f c = true) s → dropWhile f s = [].
Proof. induction 1 as [|c s Hc _ IH]; simpl; [done|]. by rewrite Hc. Qed.

Lemma trim_blank (s : jsstring) :
  Forall (fun c => is_white_space c = true) s → trim s = [].
Proof.
  intros H. unfold trim, trimEnd, trimStart. by rewrite (dropWhile_all _ s H).
Qed.

Lemma nonblank_iff_visible (s : jsstring) :
  nonblank (VString s) = true ↔ ∃ c, c ∈ s ∧ is_white_space c = false.
Proof.
  unfold nonblank; simpl. rewrite negb_true_iff, Nat.eqb_neq. split.
  - intros Hlen.
    destruct (decide (Forall (fun c => is_white_space c = true) s)) as [Hall|Hsome].
    + by rewrite trim_blank in Hlen.
    + apply not_Forall_Exists in Hsome; [|intros c; apply _].
      apply Exists_exists in Hsome as (c & Hin & Hc). exists c. split; [done|].
      simpl in Hc. by destruct (is_white_space c).
  - intros (c & Hin & Hc). by apply (trim_nonblank s c).
Qed.

Lemma num_le_num (a b : Z) : num_le (num a) (num b) = (a <=? b)%Z.
Proof. unfold num_le, num. simpl. by rewrite !Z.mul_1_r. Qed.

(** A required string passes exactly when one of its code units is not
    white space: the empty string and strings of blanks, tabs, line breaks
    and the other space characters are rejected, whatever their length. *)
Theorem required_string_passes_iff_not_blank (s : jsstring) (mn mx : option number) :
  validate {| value := VString s; required := true; minLength := None;
              maxLength := None; min := mn; max := mx |} = true
  ↔ ∃ c, c ∈ s ∧ is_white_space c = false.
Proof.
  rewrite <- nonblank_iff_visible. unfold validate, nonblank; simpl.
  by destruct mn, mx.
Qed.

(** With whole-number bounds [validate] accepts exactly the strings whose
    length, and the whole numbers whose value, lies between the bounds, both
    ends included (a required string must also be non-blank).  So when the
    lower bound exceeds the upper one, no string and no whole number is
    accepted. *)
Theorem validate_whole_number_bounds :
  (∀ (s : jsstring) (r : bool) (a b : Z) (mn mx : option number),
     validate {| value := VString s; required := r; minLength := Some (num a);
                 maxLength := Some (num b); min := mn; max := mx |} = true
     ↔ (if r then ∃ c, c ∈ s ∧ is_white_space c = false else True) ∧
       (a ≤ Z.of_nat (length s) ≤ b)%Z) ∧
  (∀ (n : Z) (r : bool) (a b : Z) (ml xl : option number),
     validate {| value := VNumber (num n); required := r; minLength := ml;
                 maxLength := xl; min := Some (num a); max := Some (num b) |} = true
     ↔ (a ≤ n ≤ b)%Z).
Proof.
  split.
  - intros s r a b mn mx.
    rewrite validate_checks. unfold applicableChecks, conjunction, optionalCheck; simpl.
    change (10 ^ (0 - Z.min 0 0))%Z with 1%Z. rewrite !Z.mul_1_r.
    destruct r; simpl; rewrite ?andb_true_r, ?andb_true_iff, ?Z.leb_le.
    + rewrite nonblank_iff_visible. tauto.
    + tauto.
  - intros n r a b ml xl.
    rewrite validate_checks. unfold applicableChecks, conjunction, optionalCheck; simpl.
    change (10 ^ (0 - Z.min 0 0))%Z with 1%Z. rewrite !Z.mul_1_r.
    assert (nonblank (VNumber (num n)) = true) as Hreq.
    { unfold nonblank; simpl. apply negb_true_iff, Nat.eqb_neq.
      apply (numberToString_nonblank (num n)). }
    destruct r; simpl; rewrite ?Hreq; simpl;
      rewrite ?andb_true_r, ?andb_true_iff, ?Z.leb_le; tauto.
Qed.

Lemma conjunction_true (l : list bool) : conjunction l = true ↔ ∀ b, b ∈ l → b = true.
Proof.
  unfold conjunction. rewrite forallb_forall.
  split; intros H b Hb; apply H; by apply list_elem_of_In.
Qed.

Lemma optionalCheck_relaxes (bi bj : option number) (check : number -> bool) (b : bool) :
  (∀ x, bi = Some x → bj = Some x) →
  b ∈ optionalCheck bi check → b ∈ optionalCheck bj check.
Proof.
  intros H. destruct bi as [x|]; simpl; [|by intros ?%elem_of_nil].
  by rewrite (H x eq_refl).
Qed.

Lemma applicableChecks_relaxes (i j : Validatable) (b : bool) :
  relaxes i j → b ∈ applicableChecks i → b ∈ applicableChecks j.
Proof.
  intros (Hv & Hr & Hml & Hxl & Hmn & Hmx). unfold applicableChecks.
  rewrite Hv, !elem_of_app. intros [Hb|Hb].
  - left. destruct (required i); [|by apply elem_of_nil in Hb].
    by rewrite (Hr eq_refl).
  - right. destruct (value j); apply elem_of_app in Hb; apply elem_of_app;
      destruct Hb as [Hb|Hb]; eauto using optionalCheck_relaxes.
Qed.

(** Asking less never rejects more: an input that passes [validate] still
    passes after [required] is dropped or any of its bounds is removed. *)
Theorem validate_relaxation (i j : Validatable) :
  relaxes i j → validate j = true → validate i = true.
Proof.
  rewrite !validate_checks, !conjunction_true. intros Hrel Hj b Hb.
  apply Hj. by eapply applicableChecks_relaxes.
Qed.

Lemma validate_relaxation_witness :
  validate {| value := VString (str "Write the plan"); required := false;
              minLength := Some (num 5); maxLength := None; min := None; max := None |}
  = true.
Proof.
  apply (validate_relaxation _
           {| value := VString (str "Write the plan"); required := true;
              minLength := Some (num 5); maxLength := Some (num 20);
              min := Some (num 1); max := None |}).
  - repeat split; simpl; congruence.
  - reflexivity.
Defined.

(** ** More on the form *)

(** The form as coded raises no alert exactly when the title is not blank,
    the description is not blank and has at least 5 code units, and the
    people field is not blank: the people field is not compared with 1 and
    10, nor required to be a number.  Whatever the input, the three values
    are returned. *)
Theorem alert_raised_iff (ToNumber : jsstring -> number) (this : ProjectInput) :
  ((gatherUserInputVaues ToNumber this).1 = []
   ↔ (∃ c, c ∈ titleInputElement this ∧ is_white_space c = false) ∧
     (∃ c, c ∈ descriptionInputElement this ∧ is_white_space c = false) ∧
     5 ≤ length (descriptionInputElement this) ∧
     (∃ c, c ∈ peopleInputElement this ∧ is_white_space c = false)) ∧
  ((gatherUserInputVaues ToNumber this).1 = [] ∨
   (gatherUserInputVaues ToNumber this).1 = [alertMessage]) ∧
  (gatherUserInputVaues ToNumber this).2
  = Some (titleInputElement this, descriptionInputElement this,
          ToNumber (peopleInputElement this)).
Proof.
  destruct this as [t d p]. unfold gatherUserInputVaues; simpl.
  rewrite <- !nonblank_iff_visible.
  unfold validate, nonblank; simpl.
  change (10 ^ (0 - Z.min 0 0))%Z with 1%Z. rewrite !Z.mul_1_r.
  assert (Hlen : (5 <=? Z.of_nat (length d))%Z = true ↔ 5 ≤ length d)
    by (rewrite Z.leb_le; lia).
  rewrite <- Hlen.
  destruct (negb (length (trim t) =? 0)), (negb (length (trim d) =? 0)),
    (5 <=? Z.of_nat (length d))%Z, (negb (length (trim p) =? 0)); simpl;
    (split; [split; [try done; by auto|intros (? & ? & ? & ?); done]|by auto]).
Qed.

(** ** Moves compose *)

Lemma moved_Some_inv (pid : jsstring) (s : Status) (c c' : list Project) :
  moved pid s c = Some c' →
  ∃ i p, list_find (fun q => id q = pid) c = Some (i, p) ∧ status p ≠ s ∧
         c' = <[i := withStatus s p]> c.
Proof.
  unfold moved. destruct (list_find _ c) as [[i p]|]; [|done].
  case_bool_decide; [|done]. intros [= <-]. by exists i, p.
Qed.

Lemma list_find_insert_same (pid : jsstring) (c : list Project) (i : nat) (p q : Project) :
  list_find (fun x => id x = pid) c = Some (i, p) →
  id q = pid →
  list_find (fun x => id x = pid) (<[i := q]> c) = Some (i, q).
Proof.
  intros (Hi & Hp & Hmin)%list_find_Some Hq. apply list_find_Some.
  split; [|split; [done|]].
  - apply list_lookup_insert_eq. by eapply lookup_lt_Some.
  - intros j y Hj Hlt. rewrite list_lookup_insert_ne in Hj by lia. by eapply Hmin.
Qed.

Lemma moved_particulars (pid : jsstring) (s : Status) (c c' : list Project) :
  moved pid s c = Some c' → particulars <$> c' = particulars <$> c.
Proof.
  intros (i & p & (Hi & _)%list_find_Some & _ & ->)%moved_Some_inv.
  rewrite list_fmap_insert. apply list_insert_id.
  by rewrite list_lookup_fmap, Hi.
Qed.

Lemma moved_twice (pid : jsstring) (s : Status) (c c' : list Project) :
  moved pid s c = Some c' → moved pid s c' = None.
Proof.
  intros (i & p & Hfind & _ & ->)%moved_Some_inv.
  pose proof Hfind as (_ & Hp & _)%list_find_Some.
  unfold moved. rewrite (list_find_insert_same pid c i p (withStatus s p)) by done.
  by rewrite bool_decide_eq_false_2 by (intros Hn; by apply Hn).
Qed.

Lemma moved_back (pid : jsstring) (s : Status) (c : list Project) (i : nat) (p : Project) :
  list_find (fun q => id q = pid) c = Some (i, p) →
  status p ≠ s →
  moved pid (status p) (<[i := withStatus s p]> c) = Some c.
Proof.
  intros Hfind Hne. pose proof Hfind as (Hi & Hp & _)%list_find_Some.
  unfold moved. rewrite (list_find_insert_same pid c i p (withStatus s p)) by done.
  rewrite bool_decide_eq_true_2 by (simpl; congruence).
  rewrite list_insert_insert_eq. f_equal. apply list_insert_id.
  rewrite Hi. by destruct p.
Qed.

(** Moving a project to the same status twice is moving it once: the
    second call finds the status already set, changes nothing and calls no
    listener. *)
Theorem moveProject_twice_is_once
    (st : ProjectState) (h : Heap) (pid : jsstring) (s : Status) :
  wf st h →
  Forall sequenceOnly (listeners st) →
  moveProject st pid s (moveProject st pid s h).1 = ((moveProject st pid s h).1, []).
Proof.
  intros Hwf Hls. pose proof (moveProject_refines st pid s h Hwf Hls) as Hmove.
  destruct (moved pid s (collection st h)) as [c'|] eqn:Hm.
  - destruct Hmove as (Hwf1 & Hc1 & _).
    apply moveProject_silent; [done|]. rewrite Hc1. by eapply moved_twice.
  - rewrite Hmove. simpl. by apply moveProject_silent.
Qed.

Lemma moveProject_twice_witness :
  moveProject sample.1 (str "0.75") Finished
    (moveProject sample.1 (str "0.75") Finished sample.2).1
  = ((moveProject sample.1 (str "0.75") Finished sample.2).1, []).
Proof.
  apply moveProject_twice_is_once; [exact sample_wf|exact sample_listeners].
Defined.

(** A project moved to another status and then back to the status it had
    leaves the collection exactly as it was; each of the two moves writes
    the status of the same object and is then really delivered to every
    listener, once each and in order ([Delivered]). *)
Theorem moveProject_there_and_back
    (st : ProjectState) (h : Heap) (pid : jsstring) (s : Status) (i : nat) (p : Project) :
  wf st h →
  Forall sequenceOnly (listeners st) →
  list_find (fun q => id q = pid) (collection st h) = Some (i, p) →
  status p ≠ s →
  collection st (moveProject st pid (status p) (moveProject st pid s h).1).1
    = collection st h ∧
  map callee (moveProject st pid s h).2 = listeners st ∧
  map callee (moveProject st pid (status p) (moveProject st pid s h).1).2 = listeners st ∧
  ∃ r, elements h (projects st) !! i = Some r ∧
       objs h !! r = Some p ∧
       Delivered (projects st) (moveProject st pid s h).2 (setStatus r s h)
         (moveProject st pid s h).1 ∧
       Delivered (projects st)
         (moveProject st pid (status p) (moveProject st pid s h).1).2
         (setStatus r (status p) (moveProject st pid s h).1)
         (moveProject st pid (status p) (moveProject st pid s h).1).1.
Proof.
  intros Hwf Hls Hfind Hne.
  pose proof (moveProject_refines st pid s h Hwf Hls) as Hmove.
  unfold moved in Hmove. rewrite Hfind, bool_decide_eq_true_2 in Hmove by done.
  destruct Hmove as (Hwf1 & Hc1 & Hcal1 & _).
  pose proof (moveProject_refines st pid (status p) _ Hwf1 Hls) as Hback.
  rewrite Hc1, (moved_back pid s _ i p Hfind Hne) in Hback.
  destruct Hback as (_ & Hc2 & Hcal2 & _).
  split; [done|]. split; [done|]. split; [done|].
  destruct (moveProject_round st pid s h i p Hwf Hls Hfind Hne)
    as (r & Hi & Hr & Hrun & Hel & _).
  assert (Hfind1 : list_find (fun q => id q = pid)
                     (collection st (moveProject st pid s h).1)
                   = Some (i, withStatus s p)).
  { rewrite Hc1. apply (list_find_insert_same pid _ i p); [done|].
    by apply list_find_Some in Hfind as (_ & ? & _). }
  destruct (moveProject_round st pid (status p) _ i (withStatus s p) Hwf1 Hls Hfind1)
    as (r' & Hi' & _ & Hrun' & _); [simpl; congruence|].
  rewrite Hel, Hi in Hi'. injection Hi' as <-.
  exists r. split; [done|]. split; [done|]. split.
  - rewrite Hrun. apply updateListeners_delivered.
  - rewrite Hrun'. apply updateListeners_delivered.
Qed.

Lemma moveProject_there_and_back_witness :
  collection sample.1
    (moveProject sample.1 (str "0.75") Active
       (moveProject sample.1 (str "0.75") Finished sample.2).1).1
  = collection sample.1 sample.2 ∧
  map callee (moveProject sample.1 (str "0.75") Finished sample.2).2 = listeners sample.1 ∧
  map callee (moveProject sample.1 (str "0.75") Active
                (moveProject sample.1 (str "0.75") Finished sample.2).1).2
  = listeners sample.1 ∧
  ∃ r, elements sample.2 (projects sample.1) !! 1 = Some r ∧
       objs sample.2 !! r
       = Some {| id := str "0.75"; title := str "Ship";
                 description := str "Ship the product"; people := num 2;
                 status := Active |} ∧
       Delivered (projects sample.1)
         (moveProject sample.1 (str "0.75") Finished sample.2).2
         (setStatus r Finished sample.2)
         (moveProject sample.1 (str "0.75") Finished sample.2).1 ∧
       Delivered (projects sample.1)
         (moveProject sample.1 (str "0.75") Active
            (moveProject sample.1 (str "0.75") Finished sample.2).1).2
         (setStatus r Active (moveProject sample.1 (str "0.75") Finished sample.2).1)
         (moveProject sample.1 (str "0.75") Active
            (moveProject sample.1 (str "0.75") Finished sample.2).1).1.
Proof.
  apply (moveProject_there_and_back sample.1 sample.2 (str "0.75") Finished 1
           {| id := str "0.75"; title := str "Ship"; description := str "Ship the product";
              people := num 2; status := Active |}).
  - exact sample_wf.
  - exact sample_listeners.
  - vm_compute. reflexivity.
  - simpl. discriminate.
Defined.

(** ** The store only grows *)

Lemma collectionAfter_particulars (ops : list Op) (c : list Project) :
  particulars <$> collectionAfter ops c
  = (particulars <$> c) ++ (particulars <$> creations ops).
Proof.
  revert c. induction ops as [|[l|random t d n|pid s] ops IH]; intros c; simpl.
  - by rewrite app_nil_r.
  - apply IH.
  - rewrite IH, fmap_app. simpl. by rewrite <- app_assoc.
  - rewrite IH. f_equal.
    destruct (moved pid s c) as [c'|] eqn:Hm; [|done]. by apply moved_particulars in Hm.
Qed.

Lemma collectionAfter_status_frame (ops : list Op) :
  ∀ (c : list Project) (j : nat) (p q : Project),
    c !! j = Some p →
    collectionAfter ops c !! j = Some q →
    status q ≠ status p →
    ∃ s, OpMoveProject (id p) s ∈ ops.
Proof.
  induction ops as [|[l|random t d n|pid s] ops IH]; intros c j p q Hp Hq Hne; simpl in Hq.
  - congruence.
  - destruct (IH c j p q Hp Hq Hne) as [s' Hs']. exists s'. apply elem_of_cons. by right.
  - destruct (IH _ j p q (lookup_app_l_Some _ _ _ _ Hp) Hq Hne) as [s' Hs'].
    exists s'. apply elem_of_cons. by right.
  - destruct (moved pid s c) as [c'|] eqn:Hm; simpl in Hq.
    + apply moved_Some_inv in Hm as (i & p0 & (Hi & Hid & _)%list_find_Some & _ & ->).
      destruct (decide (j = i)) as [->|Hji].
      * exists s. apply elem_of_cons. left. congruence.
      * destruct (IH (<[i := withStatus s p0]> c) j p q) as [s' Hs']; [|done|done|].
        { by rewrite list_lookup_insert_ne. }
        exists s'. apply elem_of_cons. by right.
    + destruct (IH c j p q Hp Hq Hne) as [s' Hs']. exists s'. apply elem_of_cons. by right.
Qed.

(** The store only ever appends and restatuses.  After any sequence of
    operations the projects that were there are still there, at the same
    positions and with the same id, title, description and people count,
    followed by the created ones in order of creation; and a project's status
    differs from what it was only if some [moveProject] of the sequence named
    its id. *)
Theorem store_only_appends_and_restatuses (ops : list Op) (st : ProjectState) (h : Heap) :
  wf st h →
  Forall sequenceOnly (listeners st) →
  Forall sequenceOnly (registered ops) →
  particulars <$> collection (run ops st h).1 (run ops st h).2.1
    = (particulars <$> collection st h) ++ (particulars <$> creations ops) ∧
  (∀ (j : nat) (p q : Project),
     collection st h !! j = Some p →
     collection (run ops st h).1 (run ops st h).2.1 !! j = Some q →
     status q ≠ status p →
     ∃ s, OpMoveProject (id p) s ∈ ops).
Proof.
  intros Hwf Hls Hreg.
  destruct (run_refines ops st h Hwf Hls Hreg) as (_ & _ & _ & Hc & _).
  rewrite Hc. split; [apply collectionAfter_particulars|].
  intros j p q. apply collectionAfter_status_frame.
Qed.

Lemma store_only_appends_witness :
  particulars <$>
    collection (run [OpMoveProject (str "0.25") Finished;
                     OpAddProject (Finite 5 (-1)) (str "Test") (str "Test it all") (num 1)]
                  sample.1 sample.2).1
      (run [OpMoveProject (str "0.25") Finished;
            OpAddProject (Finite 5 (-1)) (str "Test") (str "Test it all") (num 1)]
         sample.1 sample.2).2.1
  = (particulars <$> collection sample.1 sample.2) ++
    (particulars <$>
       creations [OpMoveProject (str "0.25") Finished;
                  OpAddProject (Finite 5 (-1)) (str "Test") (str "Test it all") (num 1)]) ∧
  (∀ (j : nat) (p q : Project),
     collection sample.1 sample.2 !! j = Some p →
     collection (run [OpMoveProject (str "0.25") Finished;
                      OpAddProject (Finite 5 (-1)) (str "Test") (str "Test it all") (num 1)]
                   sample.1 sample.2).1
       (run [OpMoveProject (str "0.25") Finished;
             OpAddProject (Finite 5 (-1)) (str "Test") (str "Test it all") (num 1)]
          sample.1 sample.2).2.1 !! j = Some q →
     status q ≠ status p →
     ∃ s, OpMoveProject (id p) s
          ∈ [OpMoveProject (str "0.25") Finished;
             OpAddProject (Finite 5 (-1)) (str "Test") (str "Test it all") (num 1)]).
Proof.
  apply store_only_appends_and_restatuses.
  - exact sample_wf.
  - exact sample_listeners.
  - simpl. constructor.
Defined.

(** ** The columns *)

Lemma deref_filter (h : Heap) (pred : Project -> bool) (refs : list nat) :
  Forall (fun r => r < length (objs h)) refs →
  deref h (List.filter (fun r => match objs h !! r with Some p => pred p | None => false end)
             refs)
  = List.filter pred (deref h refs).
Proof.
  induction 1 as [|r refs Hr _ IH]; [done|].
  apply lookup_lt_is_Some in Hr as [p Hp].
  rewrite (deref_cons_valid _ _ p) by done. simpl. rewrite Hp.
  destruct (pred p); [|done].
  by rewrite (deref_cons_valid _ _ p), IH.
Qed.

Lemma elements_new (o : list Project) (l : list (list nat)) (x : list nat) :
  elements {| objs := o; arrs := l ++ [x] |} (length l) = x.
Proof. unfold elements; simpl. by rewrite list_lookup_middle. Qed.

Lemma elements_old (o o' : list Project) (l : list (list nat)) (x : list nat) (b : nat) :
  b < length l →
  elements {| objs := o; arrs := l ++ [x] |} b = elements {| objs := o'; arrs := l |} b.
Proof. intros Hb. unfold elements; simpl. by rewrite lookup_app_l. Qed.

Lemma filter_columns_permutation (c : list Project) :
  List.filter (relevant active) c ++ List.filter (relevant finished) c ≡ₚ c.
Proof.
  induction c as [|p c IH]; [done|]. simpl.
  destruct (status p); simpl.
  - by constructor.
  - rewrite <- Permutation_middle. by constructor.
Qed.

Lemma relevant_status (type : ListType) (c : list Project) (p : Project) :
  p ∈ List.filter (relevant type) c →
  status p = match type with active => Active | finished => Finished end.
Proof.
  rewrite list_elem_of_In, filter_In. intros [_ Hp].
  destruct type; simpl in Hp; by apply bool_decide_eq_true in Hp.
Qed.

(** After a notification round on the board, the active column is assigned
    exactly the [Active] projects of the collection and the finished column
    exactly the [Finished] ones, each in the order of the collection; every
    project is assigned to one column, none to both, and the collection
    itself is as it was. *)
Theorem board_round_fills_the_columns (st : ProjectState) (h : Heap) :
  wf st h →
  (updateListeners [projectListListener active; projectListListener finished]
     (projects st) h).1 = (boardRound (projects st) h).2 ∧
  deref (boardRound (projects st) h).2
    (elements (boardRound (projects st) h).2 (boardRound (projects st) h).1.1)
  = List.filter (relevant active) (collection st h) ∧
  deref (boardRound (projects st) h).2
    (elements (boardRound (projects st) h).2 (boardRound (projects st) h).1.2)
  = List.filter (relevant finished) (collection st h) ∧
  List.filter (relevant active) (collection st h) ++
    List.filter (relevant finished) (collection st h) ≡ₚ collection st h ∧
  (∀ p, p ∈ List.filter (relevant active) (collection st h) → status p = Active) ∧
  (∀ p, p ∈ List.filter (relevant finished) (collection st h) → status p = Finished) ∧
  collection st (boardRound (projects st) h).2 = collection st h.
Proof.
  intros (Ha & Hnd & Hv).
  split; [reflexivity|].
  unfold boardRound, relevantProjects, filterArray, slice, collection. simpl.
  set (els := elements h (projects st)) in *.
  rewrite (elements_new (objs h) (arrs h) els).
  set (fa := List.filter _ els).
  assert (Hels : elements {| objs := objs h; arrs := (arrs h ++ [els]) ++ [fa] |}
                   (projects st) = els).
  { rewrite (elements_old _ (objs h)) by (rewrite length_app; simpl; lia).
    rewrite (elements_old _ (objs h)) by done. by destruct h. }
  rewrite Hels.
  rewrite (elements_new (objs h) ((arrs h ++ [els]) ++ [fa]) els).
  set (ff := List.filter _ els).
  split; [|split; [|split; [|split; [|split]]]].
  - rewrite (elements_old _ (objs h)), (elements_old _ (objs h))
      by (rewrite ?length_app; simpl; lia).
    rewrite (elements_new (objs h) (arrs h ++ [els]) fa).
    by apply (deref_filter h).
  - rewrite (elements_new (objs h) (((arrs h ++ [els]) ++ [fa]) ++ [els]) ff).
    by apply (deref_filter h).
  - apply filter_columns_permutation.
  - intros p. apply (relevant_status active).
  - intros p. apply (relevant_status finished).
  - rewrite !(elements_old _ (objs h)) by (rewrite ?length_app; simpl; lia).
    by destruct h.
Qed.

Lemma board_round_witness :
  (updateListeners [projectListListener active; projectListListener finished]
     (projects sample.1) sample.2).1 = (boardRound (projects sample.1) sample.2).2 ∧
  deref (boardRound (projects sample.1) sample.2).2
    (elements (boardRound (projects sample.1) sample.2).2
       (boardRound (projects sample.1) sample.2).1.1)
  = List.filter (relevant active) (collection sample.1 sample.2) ∧
  deref (boardRound (projects sample.1) sample.2).2
    (elements (boardRound (projects sample.1) sample.2).2
       (boardRound (projects sample.1) sample.2).1.2)
  = List.filter (relevant finished) (collection sample.1 sample.2) ∧
  List.filter (relevant active) (collection sample.1 sample.2) ++
    List.filter (relevant finished) (collection sample.1 sample.2)
    ≡ₚ collection sample.1 sample.2 ∧
  (∀ p, p ∈ List.filter (relevant active) (collection sample.1 sample.2) →
        status p = Active) ∧
  (∀ p, p ∈ List.filter (relevant finished) (collection sample.1 sample.2) →
        status p = Finished) ∧
  collection sample.1 (boardRound (projects sample.1) sample.2).2
  = collection sample.1 sample.2.
Proof. apply board_round_fills_the_columns. exact sample_wf. Defined.

(** ** Drag and drop *)

Lemma find_app_none {A : Type} (f : A -> bool) (l k : list A) :
  List.find f l = None → List.find f (l ++ k) = List.find f k.
Proof.
  induction l as [|x l IH]; simpl; [done|]. destruct (f x); [done|exact IH].
Qed.

Lemma find_filter_negb {A : Type} (f : A -> bool) (l : list A) :
  List.find f (List.filter (fun x => negb (f x)) l) = None.
Proof.
  induction l as [|x l IH]; simpl; [done|].
  destruct (f x) eqn:Hx; simpl; [done|]. by rewrite Hx.
Qed.

Lemma getData_setData (format data : jsstring) (dt : DataTransfer) :
  getData format (setData format data dt) = data.
Proof.
  unfold getData, setData; simpl.
  rewrite find_app_none by apply (find_filter_negb (fun item => bool_decide (item.1 = format))).
  simpl. by rewrite bool_decide_eq_true_2.
Qed.

(** Dragging a card and dropping it on a column moves the project the card
    shows: whatever the drag's data store held before, the drop event, which
    carries the same data store, reads back the id that the drag start
    wrote, and when that project is the first
    with its id and is not yet in the column's status, the status of its
    object is written, the store afterwards has it in the column's status,
    with every other project as it was, and the move is really delivered to
    every listener, once each and in order ([Delivered]). *)
Theorem drag_then_drop_moves_the_project
    (st : ProjectState) (h : Heap) (this : ProjectList) (event : DragEvent)
    (dt : DataTransfer) (r i : nat) (p : Project) :
  wf st h →
  Forall sequenceOnly (listeners st) →
  dataTransfer event = Some dt →
  objs h !! r = Some p →
  list_find (fun q => id q = id p) (collection st h) = Some (i, p) →
  status p ≠ match type this with active => Active | finished => Finished end →
  ∃ started moved calls,
    dragStartHandler r event h = Some started ∧
    dropHandlerOnEvent this
      {| dataTransfer := dataTransfer started; defaultPrevented := false |} st h
    = Some (this, (moved, calls)) ∧
    collection st moved
    = <[i := withStatus match type this with active => Active | finished => Finished end p]>
        (collection st h) ∧
    map callee calls = listeners st ∧
    ∃ found, elements h (projects st) !! i = Some found ∧
             objs h !! found = Some p ∧
             Delivered (projects st) calls
               (setStatus found
                  match type this with active => Active | finished => Finished end h)
               moved.
Proof.
  intros Hwf Hls Hdt Hr Hfind Hne.
  pose proof (moveProject_refines st (id p)
                match type this with active => Active | finished => Finished end
                h Hwf Hls) as Hmove.
  unfold moved in Hmove. rewrite Hfind, bool_decide_eq_true_2 in Hmove by done.
  destruct Hmove as (_ & Hc & Hcal & _).
  destruct (moveProject_round st (id p)
              match type this with active => Active | finished => Finished end
              h i p Hwf Hls Hfind Hne) as (found & Hi & Hfound & Hrun & _).
  exists {| dataTransfer :=
              Some {| dragData := dragData (setData (str "text/plain") (id p) dt);
                      effectAllowed := str "move" |};
            defaultPrevented := defaultPrevented event |}.
  eexists _, _. split; [|split; [|split; [exact Hc|split; [exact Hcal|]]]]; cycle 2.
  { exists found. split; [done|]. split; [done|].
    rewrite Hrun. apply updateListeners_delivered. }
  - unfold dragStartHandler. by rewrite Hdt, Hr.
  - unfold dropHandlerOnEvent. cbn [dataTransfer].
    assert (Hg : getData (str "text/plain")
                   {| dragData := dragData (setData (str "text/plain") (id p) dt);
                      effectAllowed := str "move" |} = id p)
      by exact (getData_setData (str "text/plain") (id p) dt).
    rewrite Hg. unfold dropHandler. by rewrite <- surjective_pairing.
Qed.

Lemma drag_then_drop_witness :
  ∃ started moved calls,
    dragStartHandler 1 {| dataTransfer := Some emptyDataTransfer; defaultPrevented := false |}
      sample.2 = Some started ∧
    dropHandlerOnEvent {| type := finished; ulClassList := [] |}
      {| dataTransfer := dataTransfer started; defaultPrevented := false |}
      sample.1 sample.2
    = Some ({| type := finished; ulClassList := [] |}, (moved, calls)) ∧
    collection sample.1 moved
    = <[1 := withStatus Finished
               {| id := str "0.75"; title := str "Ship";
                  description := str "Ship the product"; people := num 2;
                  status := Active |}]> (collection sample.1 sample.2) ∧
    map callee calls = listeners sample.1 ∧
    ∃ found, elements sample.2 (projects sample.1) !! 1 = Some found ∧
             objs sample.2 !! found
             = Some {| id := str "0.75"; title := str "Ship";
                       description := str "Ship the product"; people := num 2;
                       status := Active |} ∧
             Delivered (projects sample.1) calls (setStatus found Finished sample.2) moved.
Proof.
  apply (drag_then_drop_moves_the_project sample.1 sample.2
           {| type := finished; ulClassList := [] |}
           {| dataTransfer := Some emptyDataTransfer; defaultPrevented := false |}
           emptyDataTransfer 1 1
           {| id := str "0.75"; title := str "Ship"; description := str "Ship the product";
              people := num 2; status := Active |}).
  - exact sample_wf.
  - exact sample_listeners.
  - reflexivity.
  - reflexivity.
  - vm_compute. reflexivity.
  - simpl. discriminate.
Defined.

Lemma classListRemove_spec (token t : jsstring) (l : list jsstring) :
  t ∈ classListRemove token l ↔ t ∈ l ∧ t ≠ token.
Proof.
  unfold classListRemove. rewrite !list_elem_of_In, filter_In.
  rewrite negb_true_iff, bool_decide_eq_false. done.
Qed.

Lemma classListRemove_absent (token : jsstring) (l : list jsstring) :
  token ∉ l → classListRemove token l = l.
Proof.
  intros Hn. unfold classListRemove. induction l as [|t l IH]; [done|]. simpl.
  apply not_elem_of_cons in Hn as [Hne Hn].
  rewrite bool_decide_eq_false_2 by congruence. simpl. by rewrite IH.
Qed.

Lemma classListRemove_add (token : jsstring) (l : list jsstring) :
  token ∉ l → classListRemove token (classListAdd token l) = l.
Proof.
  intros Hn. unfold classListAdd. rewrite bool_decide_eq_false_2 by done.
  unfold classListRemove. rewrite List.filter_app. simpl.
  rewrite bool_decide_eq_true_2 by done. simpl. rewrite app_nil_r.
  by apply classListRemove_absent.
Qed.

(** The mark of a column that accepts a drop.  A drag over the column is
    accepted, and the [ul] marked ["droppable"], exactly when the first
    format of the drag is ["text/plain"]; otherwise column and event are left
    alone.  Repeating the drag over changes nothing more.  On a column that
    was not marked before, a drag leave after the drag over gives back the
    column as it was.  A drop does not take the mark away: only a drag leave
    does. *)
Theorem droppable_mark (this : ProjectList) (event : DragEvent) :
  str "droppable" ∉ ulClassList this →
  (defaultPrevented (dragOverHandler this event).2 = true ∧
   str "droppable" ∈ ulClassList (dragOverHandler this event).1
   ∨ dragOverHandler this event = (this, event)) ∧
  ((∃ dt, dataTransfer event = Some dt ∧ types dt !! 0 = Some (str "text/plain"))
   ↔ str "droppable" ∈ ulClassList (dragOverHandler this event).1) ∧
  dragOverHandler (dragOverHandler this event).1 (dragOverHandler this event).2
  = dragOverHandler this event ∧
  dragLeaveHandler (dragOverHandler this event).1 = this ∧
  (∀ (st : ProjectState) (h : Heap) (drop : DragEvent) (dropped : ProjectList)
     (r : Heap * list Call),
     dropHandlerOnEvent (dragOverHandler this event).1 drop st h = Some (dropped, r) →
     ulClassList dropped = ulClassList (dragOverHandler this event).1).
Proof.
  intros Hn. destruct this as [ty cl]. simpl in Hn.
  unfold dragOverHandler, dragLeaveHandler, dropHandlerOnEvent.
  destruct event as [[dt|] prevented]; simpl.
  - case_bool_decide as Hty; simpl.
    + rewrite bool_decide_eq_true_2 by done. simpl.
      assert (Hin : str "droppable" ∈ classListAdd (str "droppable") cl).
      { unfold classListAdd. rewrite bool_decide_eq_false_2 by done.
        apply elem_of_app. right. by apply list_elem_of_singleton. }
      split; [by left|]. split; [split; eauto|].
      split.
      { unfold classListAdd at 1. by rewrite bool_decide_eq_true_2. }
      split; [by rewrite classListRemove_add|].
      intros st h [[dt'|] ?] dropped r; simpl; [|done]. by intros [= <- _].
    + split; [by right|]. split.
      { split; [intros (dt' & [= <-] & ?); done|done]. }
      rewrite bool_decide_eq_false_2 by done.
      split; [done|]. split; [by rewrite classListRemove_absent|].
      intros st h [[dt'|] ?] dropped r; simpl; [|done]. by intros [= <- _].
  - split; [by right|]. split.
    { split; [intros (dt' & ? & _); done|done]. }
    split; [done|]. split; [by rewrite classListRemove_absent|].
    intros st h [[dt'|] ?] dropped r; simpl; [|done]. by intros [= <- _].
Qed.

Lemma droppable_mark_witness :
  (defaultPrevented
     (dragOverHandler {| type := finished; ulClassList := [str "projects"] |}
        {| dataTransfer := Some (setData (str "text/plain") (str "0.75") emptyDataTransfer);
           defaultPrevented := false |}).2 = true ∧
   str "droppable"
   ∈ ulClassList
       (dragOverHandler {| type := finished; ulClassList := [str "projects"] |}
          {| dataTransfer := Some (setData (str "text/plain") (str "0.75") emptyDataTransfer);
             defaultPrevented := false |}).1
   ∨ dragOverHandler {| type := finished; ulClassList := [str "projects"] |}
       {| dataTransfer := Some (setData (str "text/plain") (str "0.75") emptyDataTransfer);
          defaultPrevented := false |}
     = ({| type := finished; ulClassList := [str "projects"] |},
        {| dataTransfer := Some (setData (str "text/plain") (str "0.75") emptyDataTransfer);
           defaultPrevented := false |})) ∧
  dragLeaveHandler
    (dragOverHandler {| type := finished; ulClassList := [str "projects"] |}
       {| dataTransfer := Some (setData (str "text/plain") (str "0.75") emptyDataTransfer);
          defaultPrevented := false |}).1
  = {| type := finished; ulClassList := [str "projects"] |}.
Proof.
  pose proof (droppable_mark {| type := finished; ulClassList := [str "projects"] |}
                {| dataTransfer :=
                     Some (setData (str "text/plain") (str "0.75") emptyDataTransfer);
                   defaultPrevented := false |}) as H.
  destruct H as (H1 & _ & _ & H4 & _).
  - simpl. intros Hin. apply list_elem_of_singleton in Hin. discriminate Hin.
  - split; [exact H1|exact H4].
Defined.

(** ** The card *)

Lemma dropWhile_split (f : N -> bool) (l : jsstring) :
  ∃ pre, l = pre ++ dropWhile f l ∧ Forall (fun c => f c = true) pre.
Proof.
  induction l as [|c l (pre & Hl & Hpre)]; simpl; [by exists []|].
  destruct (f c) eqn:Hc; [|by exists []].
  exists (c :: pre). split; [simpl; by rewrite <- Hl|by constructor].
Qed.

Lemma stripTrailingZeros_split (l : jsstring) :
  ∃ z, l = stripTrailingZeros l ++ repeat 48%N z.
Proof.
  unfold stripTrailingZeros.
  destruct (dropWhile_split (N.eqb 48) (rev l)) as (pre & Hl & Hpre).
  exists (length pre).
  assert (Hrep : rev pre = repeat 48%N (length pre)).
  { rewrite <- length_rev. apply Forall_eq_repeat.
    apply Forall_forall. intros c Hc%list_elem_of_In%in_rev%list_elem_of_In.
    apply (proj1 (Forall_forall _ _) Hpre) in Hc. simpl in Hc. by apply N.eqb_eq. }
  rewrite <- Hrep, <- rev_app_distr, <- Hl. by rewrite rev_involutive.
Qed.

Lemma uint_units_zeros (z : nat) (d : Decimal.uint) :
  uint_units d = repeat 48%N z → d = Nat.iter z Decimal.D0 Decimal.Nil.
Proof.
  revert d. induction z as [|z IH]; intros d; simpl.
  - by destruct d.
  - destruct d; simpl; try discriminate. intros [= H]. f_equal. by apply IH.
Qed.

Lemma of_uint_acc_zeros (z : nat) (acc : positive) :
  Zpos (Pos.of_uint_acc (Nat.iter z Decimal.D0 Decimal.Nil) acc)
  = (Zpos acc * 10 ^ Z.of_nat z)%Z.
Proof.
  revert acc. induction z as [|z IH]; intros acc.
  - simpl. lia.
  - change (Nat.iter (S z) Decimal.D0 Decimal.Nil)
      with (Decimal.D0 (Nat.iter z Decimal.D0 Decimal.Nil)).
    simpl Pos.of_uint_acc. rewrite IH.
    rewrite Nat2Z.inj_succ, Z.pow_succ_r by lia. lia.
Qed.

Lemma positiveToString_one (s : positive) (e : Z) :
  positiveToString s e = [49%N] →
  ∃ z : nat, e = (- Z.of_nat z)%Z ∧ Zpos s = (10 ^ Z.of_nat z)%Z.
Proof.
  destruct (digits_significant s) as (c & Hin & Hc).
  destruct (stripTrailingZeros_split (digits s)) as (z & Hall).
  unfold positiveToString. cbv zeta.
  set (all := digits s) in *. set (ds := stripTrailingZeros all) in *.
  assert (Hno : ∀ (u : N) (l : jsstring), u ≠ 49%N → u ∈ l → l ≠ [49%N]).
  { intros u l Hu Hl ->. apply list_elem_of_singleton in Hl. done. }
  destruct ((-5 <=? e + Z.of_nat (length all)) && (e + Z.of_nat (length all) <=? 21))%Z.
  - destruct (Z.of_nat (length ds) <=? e + Z.of_nat (length all))%Z eqn:Hk.
    + intros Heq. apply Z.leb_le in Hk.
      destruct ds as [|d ds'] eqn:Hds; [by apply elem_of_nil in Hin|].
      simpl in Heq. injection Heq as -> Hrest.
      apply app_eq_nil in Hrest as [-> Hrep].
      simpl in Hk.
      assert (Hn : (e + Z.of_nat (length all) = 1)%Z).
      { apply (f_equal length) in Hrep. rewrite repeat_length in Hrep.
        simpl in Hrep. lia. }
      exists z. rewrite Hall in Hn. simpl in Hn. rewrite repeat_length in Hn.
      split; [lia|].
      assert (Hu : Pos.to_uint s = Decimal.D1 (Nat.iter z Decimal.D0 Decimal.Nil)).
      { unfold all, digits in Hall. simpl in Hall.
        destruct (Pos.to_uint s) as [|u|u|u|u|u|u|u|u|u|u]; simpl in Hall;
          try discriminate Hall.
        injection Hall as Hall. f_equal. by apply uint_units_zeros. }
      pose proof (DecimalPos.Unsigned.of_to s) as Hs. rewrite Hu in Hs.
      simpl in Hs. injection Hs as Hs. rewrite <- Hs.
      rewrite of_uint_acc_zeros. lia.
    + destruct (0 <? e + Z.of_nat (length all))%Z.
      * intros Heq. exfalso. eapply (Hno 46%N); [done| |exact Heq].
        rewrite !elem_of_app, ?elem_of_cons. auto.
      * discriminate.
  - destruct (Z.of_nat (length ds) =? 1)%Z;
      intros Heq; exfalso; (eapply (Hno 101%N); [done| |exact Heq]);
      rewrite !elem_of_app, ?elem_of_cons; auto 10.
Qed.

Lemma numberToString_one (x : number) :
  numberToString x = [49%N] → num_eq x (num 1) = true.
Proof.
  destruct x as [|[]|[|s|s] e]; simpl; try discriminate.
  intros (z & -> & Hs)%positiveToString_one.
  unfold num_eq, num_le, num.
  rewrite (Z.min_l (- Z.of_nat z) 0), (Z.min_r 0 (- Z.of_nat z)) by lia.
  replace (- Z.of_nat z - - Z.of_nat z)%Z with 0%Z by lia.
  replace (0 - - Z.of_nat z)%Z with (Z.of_nat z) by lia.
  rewrite Hs. simpl (10 ^ 0)%Z. rewrite Z.mul_1_r, Z.mul_1_l.
  by rewrite Z.leb_refl.
Qed.

(** The card counts people grammatically: [persons] is ["1 person"]
    exactly when the people count equals 1, the number followed by
    [" persons"] otherwise, and never ["1 persons"]; so the card never reads
    ["1 persons assigned"]. *)
Theorem persons_agrees_in_number (p : Project) :
  (persons p = str "1 person" ↔ num_eq (people p) (num 1) = true) ∧
  (persons p = str "1 person" ∨
   persons p = numberToString (people p) ++ str " persons") ∧
  persons p ≠ str "1 persons" ∧
  assignedText p ≠ str "1 persons assigned".
Proof.
  assert (Hassigned : persons p ≠ str "1 persons" →
                      assignedText p ≠ str "1 persons assigned").
  { intros Hp. unfold assignedText.
    change (str "1 persons assigned") with (str "1 persons" ++ str " assigned").
    by intros ?%app_inv_tail. }
  cut ((persons p = str "1 person" ↔ num_eq (people p) (num 1) = true) ∧
       (persons p = str "1 person" ∨
        persons p = numberToString (people p) ++ str " persons") ∧
       persons p ≠ str "1 persons"); [intros (? & ? & ?); auto|].
  unfold persons. destruct (num_eq (people p) (num 1)) eqn:He.
  - split; [done|]. split; [by left|]. vm_compute. discriminate.
  - assert (Hplural : numberToString (people p) ++ str " persons" ≠ str "1 person").
    { change (str " persons") with (str " person" ++ [115%N]).
      change (str "1 person") with (str "1 perso" ++ [110%N]).
      rewrite app_assoc. intros [_ Hlast]%app_inj_tail. discriminate Hlast. }
    split; [split; [by intros ?|done]|]. split; [by right|].
    change (str "1 persons") with ([49%N] ++ str " persons").
    intros Hone%app_inv_tail. apply numberToString_one in Hone. congruence.
Qed.

(** ** A session at the form *)

Lemma submitAll_spec (ToNumber : jsstring -> number) (typed : list (number * ProjectInput))
    (st : ProjectState) :
  Forall sequenceOnly (listeners st) →
  ∀ h : Heap,
    wf st h →
    wf st (submitAll ToNumber typed st h).2.1 ∧
    collection st (submitAll ToNumber typed st h).2.1
    = collection st h ++
      map (fun e => created e.1 (titleInputElement e.2) (descriptionInputElement e.2)
                      (ToNumber (peopleInputElement e.2))) typed ∧
    length (submitAll ToNumber typed st h).1 = length typed ∧
    map callee (submitAll ToNumber typed st h).2.2
    = concat (map (fun _ => listeners st) typed).
Proof.
  intros Hls. induction typed as [|[random this] typed IH]; intros h Hwf; simpl.
  { by rewrite app_nil_r. }
  unfold submitHandler, gatherUserInputVaues.
  destruct (addProject_refines st random (titleInputElement this)
              (descriptionInputElement this) (ToNumber (peopleInputElement this)) h Hwf Hls)
    as (Hwf1 & Hc1 & Hcal1 & _).
  destruct (addProject st random _ _ _ h) as [h1 calls]. simpl in *.
  destruct (IH h1 Hwf1) as (Hwf2 & Hc2 & Hlen & Hcal2).
  destruct (submitAll ToNumber typed st h1) as [alertss [h2 later]]. simpl in *.
  split; [done|]. split; [by rewrite Hc2, Hc1, <- app_assoc|].
  split; [by rewrite Hlen|]. by rewrite map_app, Hcal1, Hcal2.
Qed.

Lemma submitAll_run (ToNumber : jsstring -> number) (typed : list (number * ProjectInput))
    (st : ProjectState) :
  ∀ h : Heap,
    run (map (fun e => OpAddProject e.1 (titleInputElement e.2)
                         (descriptionInputElement e.2)
                         (ToNumber (peopleInputElement e.2))) typed) st h
    = (st, (submitAll ToNumber typed st h).2).
Proof.
  induction typed as [|[random this] typed IH]; intros h; simpl; [done|].
  unfold submitHandler, gatherUserInputVaues. simpl.
  destruct (addProject st random _ _ _ h) as [h1 calls]. rewrite IH.
  by destruct (submitAll ToNumber typed st h1) as [alertss [h2 later]].
Qed.

(** Every submission adds a project, whatever was typed: after a session of
    submissions the store holds, after the projects it had, one project per
    submission, in order, made of the raw title and description and the
    converted people field; and every submission is really followed by one
    notification round: the session is performed as that many [addProject]
    calls, each creating, pushing and delivering to every listener in order
    ([Performed]). *)
Theorem every_submission_adds_a_project (ToNumber : jsstring -> number)
    (typed : list (number * ProjectInput)) (st : ProjectState) (h : Heap) :
  wf st h →
  Forall sequenceOnly (listeners st) →
  collection st (submitAll ToNumber typed st h).2.1
  = collection st h ++
    map (fun e => created e.1 (titleInputElement e.2) (descriptionInputElement e.2)
                    (ToNumber (peopleInputElement e.2))) typed ∧
  length (submitAll ToNumber typed st h).1 = length typed ∧
  map callee (submitAll ToNumber typed st h).2.2
  = concat (map (fun _ => listeners st) typed) ∧
  Performed
    (map (fun e => OpAddProject e.1 (titleInputElement e.2) (descriptionInputElement e.2)
                     (ToNumber (peopleInputElement e.2))) typed)
    st h (submitAll ToNumber typed st h).2.2 (submitAll ToNumber typed st h).2.1.
Proof.
  intros Hwf Hls.
  destruct (submitAll_spec ToNumber typed st Hls h Hwf) as (_ & ? & ? & ?).
  split; [done|]. split; [done|]. split; [done|].
  pose proof (run_performed
                (map (fun e => OpAddProject e.1 (titleInputElement e.2)
                                 (descriptionInputElement e.2)
                                 (ToNumber (peopleInputElement e.2))) typed) st h) as Hp.
  by rewrite (submitAll_run ToNumber typed st h) in Hp.
Qed.

Lemma every_submission_witness :
  collection board.1
    (submitAll (fun _ => NaN)
       [(Finite 25 (-2), crowdedForm); (Finite 75 (-2), blankForm)] board.1 board.2).2.1
  = collection board.1 board.2 ++
    map (fun e => created e.1 (titleInputElement e.2) (descriptionInputElement e.2) NaN)
      [(Finite 25 (-2), crowdedForm); (Finite 75 (-2), blankForm)] ∧
  length (submitAll (fun _ => NaN)
            [(Finite 25 (-2), crowdedForm); (Finite 75 (-2), blankForm)]
            board.1 board.2).1 = 2 ∧
  map callee
    (submitAll (fun _ => NaN)
       [(Finite 25 (-2), crowdedForm); (Finite 75 (-2), blankForm)] board.1 board.2).2.2
  = concat (map (fun _ => listeners board.1)
              [(Finite 25 (-2), crowdedForm); (Finite 75 (-2), blankForm)]) ∧
  Performed
    (map (fun e => OpAddProject e.1 (titleInputElement e.2) (descriptionInputElement e.2)
                     NaN)
       [(Finite 25 (-2), crowdedForm); (Finite 75 (-2), blankForm)])
    board.1 board.2
    (submitAll (fun _ => NaN)
       [(Finite 25 (-2), crowdedForm); (Finite 75 (-2), blankForm)] board.1 board.2).2.2
    (submitAll (fun _ => NaN)
       [(Finite 25 (-2), crowdedForm); (Finite 75 (-2), blankForm)] board.1 board.2).2.1.
Proof.
  apply (every_submission_adds_a_project (fun _ => NaN)
           [(Finite 25 (-2), crowdedForm); (Finite 75 (-2), blankForm)]
           board.1 board.2 board_wf board_listeners).
Defined.

(** ** Drops that do nothing *)

Lemma numberToString_not_empty (x : number) : numberToString x ≠ [].
Proof. intros H. pose proof (numberToString_nonblank x) as Hn. by rewrite H in Hn. Qed.

Lemma getData_absent (format : jsstring) (dt : DataTransfer) :
  format ∉ types dt → getData format dt = [].
Proof.
  unfold getData, types. intros Hn.
  destruct (List.find _ (dragData dt)) as [item|] eqn:Hfind; [|done].
  apply find_some in Hfind as [Hin Heq]. apply bool_decide_eq_true in Heq.
  exfalso. apply Hn. rewrite <- Heq. apply list_elem_of_In, in_map, Hin.
Qed.

Lemma new_store_empty (h0 : Heap) :
  collection (newProjectState h0).1 (newProjectState h0).2 = [].
Proof. unfold collection. simpl. by rewrite (elements_new (objs h0) (arrs h0) []). Qed.

(** A drop that carries no ["text/plain"] item is ignored.  The handler
    reads the empty string as project id, and in a store built from a new
    one no project has an empty id, so nothing is moved and no listener is
    called. *)
Theorem drop_without_text_is_ignored (ops : list Op) (h0 : Heap) (this : ProjectList)
    (event : DragEvent) (dt : DataTransfer) :
  Forall sequenceOnly (registered ops) →
  dataTransfer event = Some dt →
  str "text/plain" ∉ types dt →
  dropHandlerOnEvent this event
    (run ops (newProjectState h0).1 (newProjectState h0).2).1
    (run ops (newProjectState h0).1 (newProjectState h0).2).2.1
  = Some (this, ((run ops (newProjectState h0).1 (newProjectState h0).2).2.1, [])).
Proof.
  intros Hreg Hdt Hn.
  destruct (run_refines ops (newProjectState h0).1 (newProjectState h0).2
              (newProjectState_wf h0) (Forall_nil_2 _) Hreg) as (Hwf & _ & _ & Hc & _).
  unfold dropHandlerOnEvent, dropHandler. rewrite Hdt, (getData_absent _ dt Hn).
  do 2 f_equal. apply moveProject_silent; [done|].
  unfold moved. rewrite (proj2 (list_find_None _ _)); [done|].
  apply Forall_forall. intros p Hp Hid.
  assert (Hin : id p ∈ id <$> collection
                  (run ops (newProjectState h0).1 (newProjectState h0).2).1
                  (run ops (newProjectState h0).1 (newProjectState h0).2).2.1)
    by (by apply list_elem_of_fmap_2).
  rewrite Hc, collectionAfter_ids, new_store_empty in Hin. simpl in Hin.
  apply list_elem_of_fmap in Hin as (x & Hx & _).
  apply (numberToString_not_empty x). congruence.
Qed.

Lemma drop_without_text_witness :
  dropHandlerOnEvent {| type := finished; ulClassList := [] |}
    {| dataTransfer :=
         Some (setData (str "text/uri-list") (str "https://example.org") emptyDataTransfer);
       defaultPrevented := false |}
    (run sampleOps (newProjectState emptyHeap).1 (newProjectState emptyHeap).2).1
    (run sampleOps (newProjectState emptyHeap).1 (newProjectState emptyHeap).2).2.1
  = Some ({| type := finished; ulClassList := [] |},
          ((run sampleOps (newProjectState emptyHeap).1 (newProjectState emptyHeap).2).2.1,
           [])).
Proof.
  apply (drop_without_text_is_ignored sampleOps emptyHeap _ _
           (setData (str "text/uri-list") (str "https://example.org") emptyDataTransfer)).
  - simpl. constructor.
  - reflexivity.
  - simpl. intros Hin. apply list_elem_of_singleton in Hin. discriminate Hin.
Defined.

(** ** Projects that share an id *)

Lemma collectionAfter_shadowed (ops : list Op) :
  ∀ (c : list Project) (i j : nat) (p q : Project),
    i < j →
    c !! i = Some p →
    c !! j = Some q →
    id p = id q →
    collectionAfter ops c !! j = Some q.
Proof.
  induction ops as [|[l|random t d n|pid s] ops IH]; intros c i j p q Hij Hp Hq Hid; simpl.
  - done.
  - by eapply IH.
  - eapply (IH _ i j p q); eauto using lookup_app_l_Some.
  - destruct (moved pid s c) as [c'|] eqn:Hm; simpl; [|by eapply IH].
    apply moved_Some_inv in Hm as (k & p0 & (Hk & Hpid & Hmin)%list_find_Some & _ & ->).
    assert (Hkj : k ≠ j).
    { intros ->. assert (p0 = q) as -> by congruence.
      apply (Hmin i p Hp Hij). congruence. }
    destruct (decide (k = i)) as [->|Hki].
    + assert (p0 = p) as -> by congruence.
      eapply (IH _ i j (withStatus s p) q); eauto.
      * apply list_lookup_insert_eq. by eapply lookup_lt_Some.
      * by rewrite list_lookup_insert_ne.
    + eapply (IH _ i j p q); eauto; by rewrite list_lookup_insert_ne.
Qed.

(** When two projects share an id, the later one can never be moved:
    [moveProject] always stops at the first project with the id, so whatever
    operations follow, the later project stays at its position with the
    status, and every other field, it had. *)
Theorem shadowed_project_never_moves (ops : list Op) (st : ProjectState) (h : Heap)
    (i j : nat) (p q : Project) :
  wf st h →
  Forall sequenceOnly (listeners st) →
  Forall sequenceOnly (registered ops) →
  i < j →
  collection st h !! i = Some p →
  collection st h !! j = Some q →
  id p = id q →
  collection (run ops st h).1 (run ops st h).2.1 !! j = Some q.
Proof.
  intros Hwf Hls Hreg Hij Hp Hq Hid.
  destruct (run_refines ops st h Hwf Hls Hreg) as (_ & _ & _ & Hc & _).
  rewrite Hc. by eapply collectionAfter_shadowed.
Qed.

Lemma twins_wf : wf twins.1 twins.2.
Proof.
  pose proof (run_refines twinOps board.1 board.2 board_wf board_listeners) as H.
  unfold twins. destruct (run twinOps board.1 board.2) as [st [h calls]].
  apply H. constructor.
Qed.

Lemma shadowed_project_witness :
  collection
    (run [OpMoveProject (str "0.5") Finished; OpMoveProject (str "0.5") Active;
          OpMoveProject (str "0.5") Finished] twins.1 twins.2).1
    (run [OpMoveProject (str "0.5") Finished; OpMoveProject (str "0.5") Active;
          OpMoveProject (str "0.5") Finished] twins.1 twins.2).2.1 !! 1
  = Some {| id := str "0.5"; title := str "Ship"; description := str "Ship the product";
            people := num 2; status := Active |}.
Proof.
  apply (shadowed_project_never_moves _ twins.1 twins.2 0 1
           {| id := str "0.5"; title := str "Plan"; description := str "Write the plan";
              people := num 3; status := Active |}).
  - exact twins_wf.
  - exact board_listeners.
  - simpl. constructor.
  - lia.
  - reflexivity.
  - reflexivity.
  - reflexivity.
Defined.
